(** * Corn hedging tracker: exposure calculation, ledger mutations and the
    Firebase-synced state hook.

    The development embeds two pieces of the source:
    - the hook [useFirebaseState], which binds one collection to one backend
      path (module [SyncedCollection]);
    - [corn-hedging-tracker.jsx]: the component's pure helpers, its exposure
      calculation and its mutation handlers (module [Tracker]).

    JavaScript fragments shared by both are in module [Js]. *)

From Stdlib Require Import ZArith QArith Ascii String.
From stdpp Require Import gmap strings list fin_maps sorting pretty.

#[local] Set Warnings "-register-all".
#[local] Open Scope string_scope.
#[local] Open Scope list_scope.
#[local] Open Scope Z_scope.

(** ** JavaScript values and primitives *)
Module Js.

(** Values a Firebase snapshot can deliver, plus [undefined].  An array is
    represented by the object of its index properties: for [typeof],
    [Object.entries] and object spread, the only operations applied to such a
    value here, JavaScript treats both alike.  Property order is not
    represented (objects are finite maps). *)
Inductive jsval :=
| JUndefined
| JNull
| JBool (b : bool)
| JNum (n : Z)
| JStr (s : string)
| JObj (props : gmap string jsval).

(** [!v] is [negb (truthy v)]. *)
Definition truthy (v : jsval) : bool :=
  match v with
  | JUndefined | JNull => false
  | JBool b => b
  | JNum n => negb (n =? 0)
  | JStr s => negb (s =? "")%string
  | JObj _ => true
  end.

Definition typeof (v : jsval) : string :=
  match v with
  | JUndefined => "undefined"
  | JNull => "object"
  | JBool _ => "boolean"
  | JNum _ => "number"
  | JStr _ => "string"
  | JObj _ => "object"
  end.

(** Own enumerable properties, as read by [{...v}]: those of an object, the
    indexed characters of a string, none for the other primitives. *)
Definition own_props (v : jsval) : gmap string jsval :=
  match v with
  | JObj m => m
  | JStr s =>
      list_to_map
        (imap (fun i c => (pretty i, JStr (String c EmptyString)))
              (String.list_ascii_of_string s))
  | _ => ∅
  end.

(** *** parseInt, with no radix argument

    A string is the sequence of its UTF-16 code units, and the strings of
    this development are those whose code units are below 256.  [None]
    stands for NaN.  The result is the integer the digits denote; the code
    holds it exactly up to 2^53 and rounded to a double beyond. *)

(** The code units below 256 that [parseInt] and [trim] strip: of the
    language's WhiteSpace, TAB, VT, FF, SP and NBSP (U+00A0); of its
    LineTerminator, LF and CR. *)
Definition is_ws (c : ascii) : bool :=
  let n := nat_of_ascii c in
  ((n =? 32) || (n =? 9) || (n =? 10) || (n =? 11) || (n =? 12) || (n =? 13)
   || (n =? 160))%nat.

Fixpoint trim_ws (s : string) : string :=
  match s with
  | String c r => if is_ws c then trim_ws r else s
  | EmptyString => s
  end.

Definition digit_val (c : ascii) : option Z :=
  let n := Z.of_nat (nat_of_ascii c) in
  if (48 <=? n) && (n <=? 57) then Some (n - 48)
  else if (97 <=? n) && (n <=? 102) then Some (n - 87)
  else if (65 <=? n) && (n <=? 70) then Some (n - 55)
  else None.

(** Longest prefix of radix-[radix] digits, read most significant first;
    [acc] is [None] until a digit has been seen. *)
Fixpoint digits (radix : Z) (s : string) (acc : option Z) : option Z :=
  match s with
  | String c r =>
      match digit_val c with
      | Some d =>
          if d <? radix then digits radix r (Some (radix * default 0 acc + d))
          else acc
      | None => acc
      end
  | EmptyString => acc
  end.

Definition strip_sign (s : string) : Z * string :=
  match s with
  | String "-" r => (-1, r)
  | String "+" r => (1, r)
  | _ => (1, s)
  end.

Definition strip_radix (s : string) : Z * string :=
  match s with
  | String "0" (String "x" r) => (16, r)
  | String "0" (String "X" r) => (16, r)
  | _ => (10, s)
  end.

Definition parseInt (s : string) : option Z :=
  let '(sign, s1) := strip_sign (trim_ws s) in
  let '(radix, s2) := strip_radix s1 in
  (fun n => sign * n) <$> digits radix s2 None.

(** [parseInt(s) || 0]: NaN and 0 are falsy. *)
Definition parseInt_or0 (s : string) : Z := default 0 (parseInt s).

(** *** Numbers produced by division

    A finite double is represented by the rational it denotes, in lowest
    terms; the other three values are the infinities and NaN.  The two zeros
    are not told apart: nothing here divides by a computed zero or prints
    one. *)
Inductive jsnum :=
| Fin (q : Q)
| PInf
| NInf
| NaN.

Definition of_Z (z : Z) : jsnum := Fin (inject_Z z).

(** A number that is not NaN and not below zero. *)
Definition js_nonneg (x : jsnum) : Prop :=
  match x with
  | Fin q => (0 <= q)%Q
  | PInf => True
  | _ => False
  end.

(** The integer nearest to [n / d] for [d > 0], a tie going to the even
    one. *)
Definition rne (n d : Z) : Z :=
  let f := n / d in
  let r := 2 * (n mod d) in
  if r <? d then f
  else if d <? r then f + 1
  else if Z.even f then f else f + 1.

(** The integer part of the binary logarithm of [n / d], for positive [n]
    and [d]. *)
Definition floor_log2 (n d : Z) : Z :=
  let e := Z.log2 n - Z.log2 d in
  if d * 2 ^ Z.max 0 e <=? n * 2 ^ Z.max 0 (- e) then e else e - 1.

(** Rounding of the positive rational [n / d] to binary64: 53 significant
    bits, the exponent not below -1022 (subnormals), nearest value with
    ties to even; [None] when the rounded value reaches 2^1024. *)
Definition round_pos (n d : Z) : option Q :=
  let s := Z.max (floor_log2 n d) (- 1022) - 52 in
  let m := rne (n * 2 ^ Z.max 0 (- s)) (d * 2 ^ Z.max 0 s) in
  let num := m * 2 ^ Z.max 0 s in
  if 2 ^ 1024 <=? num then None
  else Some (Qred (Qmake num (Z.to_pos (2 ^ Z.max 0 (- s))))).

(** The double an exact result is rounded to. *)
Definition to_double (q : Q) : jsnum :=
  let r := Qred q in
  match Qnum r ?= 0 with
  | Eq => Fin 0
  | Gt => match round_pos (Qnum r) (Z.pos (Qden r)) with
          | Some x => Fin x
          | None => PInf
          end
  | Lt => match round_pos (- Qnum r) (Z.pos (Qden r)) with
          | Some x => Fin (- x)
          | None => NInf
          end
  end.

(** [a / b] on integers the code holds exactly. *)
Definition js_div (a b : Z) : jsnum :=
  if b =? 0 then
    match a ?= 0 with
    | Eq => NaN
    | Gt => PInf
    | Lt => NInf
    end
  else to_double (inject_Z a / inject_Z b).

(** [x * k] for an integer [k]. *)
Definition js_mul (x : jsnum) (k : Z) : jsnum :=
  match x with
  | Fin q => to_double (q * inject_Z k)
  | NaN => NaN
  | PInf => match k ?= 0 with Eq => NaN | Gt => PInf | Lt => NInf end
  | NInf => match k ?= 0 with Eq => NaN | Gt => NInf | Lt => PInf end
  end.

End Js.

(** ** The synced-state hook, [useFirebaseState] *)
Module SyncedCollection.

Section hook.
Context {V : Type}.

(** A scheduled [setTimeout(() => set(fbRef, next), debounce)]. *)
Record timer := Timer {
  timer_id : nat;
  due : Z;
  payload : V
}.

(** One hook instance.  [timers] is the part of the runtime's timer queue
    owned by the instance (scheduled, neither fired nor cleared), in
    scheduling order; [writes] records the [set(fbRef, _)] calls issued so
    far, oldest first. *)
Record hook := Hook {
  value : V;
  loading : bool;
  isInitialLoad : bool;
  timerRef : option nat;
  timers : list timer;
  next_timer : nat;
  writes : list V
}.

(** [useState(defaultValue)], [useState(true)], [useRef(null)],
    [useRef(true)]. *)
Definition init (defaultValue : V) : hook :=
  Hook defaultValue true true None [] 0%nat [].

(** The argument of the setter: a function of the previous value, or a
    plain value. *)
Inductive updater :=
| Fn (f : V -> V)
| Val (v : V).

Definition apply_updater (u : updater) (prev : V) : V :=
  match u with
  | Fn f => f prev
  | Val v => v
  end.

(** The [onValue] callback; [data] is [snapshot.val()], [None] for
    [null]. *)
Definition onValue (defaultValue : V) (data : option V) (h : hook) : hook :=
  let '(v, ws) :=
    match data with
    | Some d => (d, writes h)
    | None =>
        if isInitialLoad h then (value h, writes h ++ [defaultValue])
        else (value h, writes h)
    end in
  Hook v false false (timerRef h) (timers h) (next_timer h) ws.

Definition clearTimeout (r : option nat) (ts : list timer) : list timer :=
  match r with
  | Some i => filter (fun t => timer_id t ≠ i) ts
  | None => ts
  end.

(** [setAndSync(updater)] called at time [now], its updater run once, as in
    a production build; [setAndSync_runs] below adds the reruns of a
    development build. *)
Definition setAndSync (debounce now : Z) (u : updater) (h : hook) : hook :=
  let next := apply_updater u (value h) in
  if 0 <? debounce then
    let ts := clearTimeout (timerRef h) (timers h) in
    let id := next_timer h in
    Hook next (loading h) (isInitialLoad h) (Some id)
         (ts ++ [Timer id (now + debounce) next]) (S id) (writes h)
  else
    Hook next (loading h) (isInitialLoad h) (timerRef h) (timers h)
         (next_timer h) (writes h ++ [next]).

(** The event loop reaching time [now]: every timer due by then fires and
    issues its write. *)
Definition advance (now : Z) (h : hook) : hook :=
  let fired := filter (fun t => due t <= now) (timers h) in
  let rest := filter (fun t => ¬ due t <= now) (timers h) in
  Hook (value h) (loading h) (isInitialLoad h) (timerRef h) rest
       (next_timer h) (writes h ++ (payload <$> fired)).

(** Cleanup on unmount: [clearTimeout(timerRef.current)]. *)
Definition unmount (h : hook) : hook :=
  Hook (value h) (loading h) (isInitialLoad h) (timerRef h)
       (clearTimeout (timerRef h) (timers h)) (next_timer h) (writes h).

(** What can happen to a mounted instance, each at a wall-clock time. *)
Inductive event :=
| Mutate (t : Z) (u : updater)
| Snapshot (t : Z) (data : option V)
| Tick (t : Z).

Definition step (debounce : Z) (defaultValue : V) (h : hook) (e : event)
  : hook :=
  match e with
  | Mutate t u => setAndSync debounce t u (advance t h)
  | Snapshot t data => onValue defaultValue data (advance t h)
  | Tick t => advance t h
  end.

Definition run (debounce : Z) (defaultValue : V) (h : hook)
    (es : list event) : hook :=
  foldl (step debounce defaultValue) h es.

(** A burst of setter calls, given as (time, updater) pairs. *)
Definition burst (debounce : Z) (h : hook) (calls : list (Z * updater))
  : hook :=
  foldl (fun h c => setAndSync debounce c.1 c.2 (advance c.1 h)) h calls.

(** Each call of the burst arrives before the timer of the previous one,
    set at [t], is due. *)
Fixpoint within_window (debounce t : Z) (calls : list (Z * updater)) : Prop :=
  match calls with
  | [] => True
  | c :: r => t <= c.1 < t + debounce ∧ within_window debounce c.1 r
  end.

(** Time of the last call of a burst that starts at [t]. *)
Fixpoint last_time (t : Z) (calls : list (Z * updater)) : Z :=
  match calls with
  | [] => t
  | c :: r => last_time c.1 r
  end.

(** The value after applying the updaters in order. *)
Definition apply_all (calls : list (Z * updater)) (v : V) : V :=
  foldl (fun v c => apply_updater c.2 v) v calls.

(** The write scheduled by a call at time [t] is the only live timer: it
    carries the current value and is due at [t + debounce]. *)
Definition pending_at (debounce t : Z) (h : hook) : Prop :=
  ∃ i, timers h = [Timer i (t + debounce) (value h)] ∧ timerRef h = Some i.

(** At most one timer is live, and it is the one [timerRef] names. *)
Definition hook_inv (h : hook) : Prop :=
  timers h = [] ∨
  ∃ t, timers h = [t] ∧ timerRef h = Some (timer_id t).

(** The values successive setter calls produce, oldest first. *)
Fixpoint running_values (calls : list (Z * updater)) (v : V) : list V :=
  match calls with
  | [] => []
  | c :: r => apply_updater c.2 v :: running_values r (apply_updater c.2 v)
  end.

(** A series of remote notifications, given as (time, snapshot) pairs. *)
Definition notify (defaultValue : V) (h : hook)
    (snaps : list (Z * option V)) : hook :=
  foldl (fun h n => onValue defaultValue n.2 (advance n.1 h)) h snaps.

(** The last non-null snapshot of a series, [v] when there is none. *)
Definition last_delivered (v : V) (snaps : list (Z * option V)) : V :=
  foldl (fun v n => default v n.2) v snaps.

(** Live timers plus writes issued. *)
Definition activity (h : hook) : nat :=
  (length (timers h) + length (writes h))%nat.

(** *** The updater run more than once

    [setValue] is given a function, and React may run it more than once for
    one call: under [React.StrictMode], in which main.jsx mounts the app, a
    development build runs it twice for some calls.  Every run receives the
    same previous value, computes the same [next] and issues the side
    effects again. *)

(** The side effects of one run that has computed [next]. *)
Definition sync (debounce now : Z) (next : V) (h : hook) : hook :=
  if 0 <? debounce then
    let id := next_timer h in
    Hook (value h) (loading h) (isInitialLoad h) (Some id)
         (clearTimeout (timerRef h) (timers h)
            ++ [Timer id (now + debounce) next])
         (S id) (writes h)
  else
    Hook (value h) (loading h) (isInitialLoad h) (timerRef h) (timers h)
         (next_timer h) (writes h ++ [next]).

(** [setAndSync(updater)] when React runs the updater once and then
    [reruns] times more, all within the call's render; [setAndSync] above
    is the case of no rerun. *)
Definition setAndSync_runs (reruns : nat) (debounce now : Z) (u : updater)
    (h : hook) : hook :=
  let next := apply_updater u (value h) in
  let h' := Nat.iter (S reruns) (sync debounce now next) h in
  Hook next (loading h') (isInitialLoad h') (timerRef h') (timers h')
       (next_timer h') (writes h').

(** A series of setter calls, each in an event of its own, so that the runs
    of one call's updater come before the next call (every handler of the
    component calls a given setter at most once); a call is given as
    (reruns, (time, updater)). *)
Definition burst_runs (debounce : Z) (h : hook)
    (calls : list (nat * (Z * updater))) : hook :=
  foldl (fun h c => setAndSync_runs c.1 debounce c.2.1 c.2.2 (advance c.2.1 h))
        h calls.

(** The value each call produces, once per run of its updater, oldest
    first. *)
Fixpoint written_values (calls : list (nat * (Z * updater))) (v : V)
  : list V :=
  match calls with
  | [] => []
  | c :: r =>
      replicate (S c.1) (apply_updater c.2.2 v)
        ++ written_values r (apply_updater c.2.2 v)
  end.

End hook.

Arguments hook : clear implicits.
Arguments timer : clear implicits.
Arguments updater : clear implicits.
Arguments event : clear implicits.

End SyncedCollection.

(** ** The tracker component, [corn-hedging-tracker.jsx] *)
Module Tracker.
Import Js SyncedCollection.

Definition DIRECTIONS : list string := ["Long"; "Short"].
Definition CORN_TYPES : list string :=
  ["High Moisture Corn"; "Dry Corn"; "Silage Corn"].
Definition DEFAULT_CROP_YEARS : list string := ["2024"; "2025"; "2026"; "2027"].

(** *** [hedgesObjToArray], on any value the hedges path can hold *)

(** The object literal [{ id, ...data }]: properties are defined left to
    right, so a property [id] of [data] replaces the shorthand one. *)
Definition with_id (id : string) (data : jsval) : jsval :=
  JObj (own_props data ∪ {[ "id" := JStr id ]}).

Definition hedgesObjToArray (obj : jsval) : list jsval :=
  if negb (truthy obj) || negb (typeof obj =? "object")%string then []
  else (fun e => with_id e.1 e.2) <$> map_to_list (own_props obj).

(** *** Typed records

    A ledger entry as [saveHedge] stores it (no [id] field), and the array
    element [{ id, ...data }] the calculation and the tables read. *)
Record HedgeData := mkHedgeData {
  entity : string;
  cropYear : string;
  contractType : string;
  contractMonth : string;
  quantity : Z;
  direction : string;
  price : option jsnum;
  dateEntered : string;
  notes : string
}.

Record Hedge := mkHedge {
  id : string;
  data :> HedgeData
}.

(** [useMemo(() => hedgesObjToArray(hedgesObj))] on a ledger of typed
    entries.  The elements come in the map's key order, where
    [Object.entries] keeps insertion order: the array is the same up to
    order. *)
Definition hedges (hedgesObj : gmap string HedgeData) : list Hedge :=
  (fun e => mkHedge e.1 e.2) <$> map_to_list hedgesObj.

Record AuditEntry := mkAuditEntry {
  a_id : string;
  timestamp : string;
  user : string;
  action : string;
  a_entity : string;
  details : string
}.

(** The hedge form: [quantity] and [price] are the text of their inputs;
    [f_id] is present once [openEditHedge] has spread a hedge into the form. *)
Record HedgeForm := mkHedgeForm {
  f_id : option string;
  f_entity : string;
  f_cropYear : string;
  f_contractType : string;
  f_contractMonth : string;
  f_quantity : string;
  f_direction : string;
  f_price : string;
  f_dateEntered : string;
  f_notes : string
}.

(** *** The exposure calculation, [calc] *)

(** [v || 0] on a number. *)
Definition or0 (v : Z) : Z := if v =? 0 then 0 else v.

Record Calc := mkCalc {
  hogCons : Z; feedCons : Z; totalCons : Z; totalProd : Z; netCash : Z;
  hogHedge : Z; feedHedge : Z; farmHedge : Z; totalHedge : Z;
  hogNetCash : Z; feedNetCash : Z; farmNetCash : Z;
  hogNet : Z; feedNet : Z; farmNet : Z; netPosition : Z;
  hogHedgePct : jsnum; feedHedgePct : jsnum; farmHedgePct : jsnum;
  yearHedges : list Hedge;
  prod : gmap string Z
}.

(** [consumption?.[e]?.[y] || 0] *)
Definition cons_of (consumption : gmap string (gmap string Z)) (e y : string)
  : Z :=
  or0 (default 0 (consumption !! e ≫= (.!! y))).

(** [Object.values(prod).reduce((s, v) => s + (v || 0), 0)] *)
Definition sum_values (prod : gmap string Z) : Z :=
  map_fold (fun _ v s => s + or0 v) 0 prod.

Definition hedgeByEntity (yearHedges : list Hedge) (e : string) : Z :=
  foldl (fun sum (h : Hedge) =>
           let qty := or0 (quantity h) in
           sum + (if (direction h =? "Long")%string then qty else - qty))
        0 (filter (fun h : Hedge => entity h = e) yearHedges).

(** [m > 0 ? Math.abs(hedge) / m * 100 : 0] *)
Definition hedgePct (hedge m : Z) : jsnum :=
  if 0 <? m then js_mul (js_div (Z.abs hedge) m) 100 else of_Z 0.

Definition calc (selectedYear : string)
    (consumption production : gmap string (gmap string Z))
    (hedges : list Hedge) : Calc :=
  let y := selectedYear in
  let hogCons := cons_of consumption "Hog Finishing" y in
  let feedCons := cons_of consumption "Feedlot" y in
  let totalCons := hogCons + feedCons in
  let prod := default ∅ (production !! y) in
  let totalProd := sum_values prod in
  let netCash := totalProd - totalCons in
  let yearHedges := filter (fun h : Hedge => cropYear h = y) hedges in
  let hogHedge := hedgeByEntity yearHedges "Hog Finishing" in
  let feedHedge := hedgeByEntity yearHedges "Feedlot" in
  let farmHedge := hedgeByEntity yearHedges "Farming" in
  let totalHedge := hogHedge + feedHedge + farmHedge in
  let hogNetCash := - hogCons in
  let feedNetCash := - feedCons in
  let farmNetCash := totalProd in
  let hogNet := hogNetCash + hogHedge in
  let feedNet := feedNetCash + feedHedge in
  let farmNet := farmNetCash + farmHedge in
  let netPosition := netCash + totalHedge in
  let hogHedgePct := hedgePct hogHedge hogCons in
  let feedHedgePct := hedgePct feedHedge feedCons in
  let farmHedgePct := hedgePct farmHedge totalProd in
  mkCalc hogCons feedCons totalCons totalProd netCash
         hogHedge feedHedge farmHedge totalHedge
         hogNetCash feedNetCash farmNetCash
         hogNet feedNet farmNet netPosition
         hogHedgePct feedHedgePct farmHedgePct
         yearHedges prod.

(** *** Component state

    The local [useState] cells, the five synced collections and the
    module-level counter [_id] of the id generator. *)
Record App := mkApp {
  activeTab : string;
  selectedYear : option string;
  hedgeModalOpen : bool;
  editingHedge : option string;
  entityFilter : string;
  showYearManager : bool;
  newYear : string;
  hedgeForm : HedgeForm;
  consumption : hook (gmap string (gmap string Z));
  production : hook (gmap string (gmap string Z));
  hedgesObj : hook (gmap string HedgeData);
  cropYears : hook (list string);
  auditLog : hook (list AuditEntry);
  _id : nat
}.

(** The [debounce] option passed to each [useFirebaseState] call. *)
Definition consumption_debounce : Z := 500.
Definition production_debounce : Z := 500.
Definition hedges_debounce : Z := 0.
Definition cropYears_debounce : Z := 0.
Definition auditLog_debounce : Z := 0.

Definition set_selectedYear (y : option string) (st : App) : App :=
  mkApp (activeTab st) y (hedgeModalOpen st) (editingHedge st)
        (entityFilter st) (showYearManager st) (newYear st) (hedgeForm st)
        (consumption st) (production st) (hedgesObj st) (cropYears st)
        (auditLog st) (_id st).

Definition set_hedgeModalOpen (b : bool) (st : App) : App :=
  mkApp (activeTab st) (selectedYear st) b (editingHedge st)
        (entityFilter st) (showYearManager st) (newYear st) (hedgeForm st)
        (consumption st) (production st) (hedgesObj st) (cropYears st)
        (auditLog st) (_id st).

Definition set_hedgeForm (f : HedgeForm) (st : App) : App :=
  mkApp (activeTab st) (selectedYear st) (hedgeModalOpen st) (editingHedge st)
        (entityFilter st) (showYearManager st) (newYear st) f
        (consumption st) (production st) (hedgesObj st) (cropYears st)
        (auditLog st) (_id st).

Definition set_consumption (h : hook (gmap string (gmap string Z)))
    (st : App) : App :=
  mkApp (activeTab st) (selectedYear st) (hedgeModalOpen st) (editingHedge st)
        (entityFilter st) (showYearManager st) (newYear st) (hedgeForm st)
        h (production st) (hedgesObj st) (cropYears st)
        (auditLog st) (_id st).

Definition set_hedgesObj (h : hook (gmap string HedgeData)) (st : App) : App :=
  mkApp (activeTab st) (selectedYear st) (hedgeModalOpen st) (editingHedge st)
        (entityFilter st) (showYearManager st) (newYear st) (hedgeForm st)
        (consumption st) (production st) h (cropYears st)
        (auditLog st) (_id st).

Definition set_cropYears (h : hook (list string)) (st : App) : App :=
  mkApp (activeTab st) (selectedYear st) (hedgeModalOpen st) (editingHedge st)
        (entityFilter st) (showYearManager st) (newYear st) (hedgeForm st)
        (consumption st) (production st) (hedgesObj st) h
        (auditLog st) (_id st).

Definition set_auditLog (h : hook (list AuditEntry)) (st : App) : App :=
  mkApp (activeTab st) (selectedYear st) (hedgeModalOpen st) (editingHedge st)
        (entityFilter st) (showYearManager st) (newYear st) (hedgeForm st)
        (consumption st) (production st) (hedgesObj st) (cropYears st)
        h (_id st).

Definition set__id (n : nat) (st : App) : App :=
  mkApp (activeTab st) (selectedYear st) (hedgeModalOpen st) (editingHedge st)
        (entityFilter st) (showYearManager st) (newYear st) (hedgeForm st)
        (consumption st) (production st) (hedgesObj st) (cropYears st)
        (auditLog st) n.

(** What a handler reads from outside the component while it runs:
    [Date.now()], [new Date().toISOString()] and the answer to [confirm]. *)
Record Env := mkEnv {
  now : Z;
  iso : string;
  confirm : bool
}.

(** [genId]: [`id_${++_id}_${Date.now()}`] *)
Definition genId (env : Env) (st : App) : string * App :=
  let n := S (_id st) in
  ("id_" +:+ pretty n +:+ "_" +:+ pretty (now env), set__id n st).

Definition createAuditEntry (env : Env) (action entity details : string)
    (st : App) : AuditEntry * App :=
  let '(i, st1) := genId env st in
  (mkAuditEntry i (iso env) "Current User" action entity details, st1).

(** [addAudit], its updater run once; [addAudit_runs] below adds the
    reruns of a development build. *)
Definition addAudit (env : Env) (action entity details : string) (st : App)
  : App :=
  let '(e, st1) := createAuditEntry env action entity details st in
  set_auditLog
    (setAndSync auditLog_debounce (now env) (Fn (fun arr => e :: arr))
                (auditLog st1))
    st1.

Section handlers.
(** [parseFloat] and [Number(n).toLocaleString()] are left abstract: no
    handler branches on their result. *)
Variable parseFloat : string -> jsnum.
Variable fmtFull : Z -> string.

Definition summary (e : HedgeData) (qty : Z) : string :=
  direction e +:+ " " +:+ fmtFull qty +:+ " bu " +:+ contractType e
    +:+ " " +:+ contractMonth e +:+ " " +:+ cropYear e.

(** [{ ...formData, quantity: qty, price: ... }], [formData] being the form
    without its [id]. *)
Definition entry_of (form : HedgeForm) (qty : Z) : HedgeData :=
  mkHedgeData (f_entity form) (f_cropYear form) (f_contractType form)
              (f_contractMonth form) qty (f_direction form)
              (if (f_price form =? "")%string then None
               else Some (parseFloat (f_price form)))
              (f_dateEntered form) (f_notes form).

(** [if (editingHedge)]: [null] and the empty string are falsy. *)
Definition editing (st : App) : option string :=
  match editingHedge st with
  | Some k => if (k =? "")%string then None else Some k
  | None => None
  end.

Definition saveHedge (env : Env) (st : App) : App :=
  match parseInt (f_quantity (hedgeForm st)) with
  | None => st
  | Some qty =>
      if (qty =? 0) || (qty <=? 0) then st
      else
        let entry := entry_of (hedgeForm st) qty in
        let st' :=
          match editing st with
          | Some k =>
              addAudit env "Hedge Modified" (entity entry) (summary entry qty)
                (set_hedgesObj
                   (setAndSync hedges_debounce (now env)
                      (Fn (fun prev => <[k := entry]> prev)) (hedgesObj st))
                   st)
          | None =>
              let '(newId, st1) := genId env st in
              addAudit env "Hedge Created" (entity entry) (summary entry qty)
                (set_hedgesObj
                   (setAndSync hedges_debounce (now env)
                      (Fn (fun prev => <[newId := entry]> prev))
                      (hedgesObj st1))
                   st1)
          end in
        set_hedgeModalOpen false st'
  end.

Definition deleteHedge (env : Env) (h : Hedge) (st : App) : App :=
  if negb (confirm env) then st
  else
    addAudit env "Hedge Deleted" (entity h) (summary h (quantity h))
      (set_hedgesObj
         (setAndSync hedges_debounce (now env)
            (Fn (fun prev => delete (id h) prev)) (hedgesObj st))
         st).

End handlers.

Definition removeCropYear (env : Env) (y : string) (st : App) : App :=
  let ys := value (cropYears st) in
  if (length ys <=? 1)%nat then st
  else if negb (confirm env) then st
  else
    let st1 :=
      set_cropYears
        (setAndSync cropYears_debounce (now env)
           (Fn (fun prev => filter (fun yr => yr ≠ y) prev)) (cropYears st))
        st in
    let st2 :=
      if decide (selectedYear st = Some y)
      then set_selectedYear (List.find (fun yr => negb (yr =? y)%string) ys) st1
      else st1 in
    addAudit env "Year Removed" "System" ("Crop year " +:+ y +:+ " removed") st2.

Definition updateConsumption (env : Env) (e year val : string) (st : App)
  : App :=
  let v := parseInt_or0 val in
  set_consumption
    (setAndSync consumption_debounce (now env)
       (Fn (fun prev => <[e := <[year := v]> (default ∅ (prev !! e))]> prev))
       (consumption st))
    st.

(** *** Default data and the state at mount

    A price literal such as [4.85] is the double nearest to that decimal. *)

Definition defaultConsumption : gmap string (gmap string Z) :=
  {[ "Hog Finishing" :=
       {[ "2024" := 2400000; "2025" := 2600000; "2026" := 2800000;
          "2027" := 3000000 ]};
     "Feedlot" :=
       {[ "2024" := 1800000; "2025" := 1950000; "2026" := 2100000;
          "2027" := 2200000 ]} ]}.

Definition defaultProduction : gmap string (gmap string Z) :=
  {[ "2024" := {[ "High Moisture Corn" := 1200000; "Dry Corn" := 2800000;
                  "Silage Corn" := 400000 ]};
     "2025" := {[ "High Moisture Corn" := 1300000; "Dry Corn" := 3000000;
                  "Silage Corn" := 450000 ]};
     "2026" := {[ "High Moisture Corn" := 1400000; "Dry Corn" := 3200000;
                  "Silage Corn" := 500000 ]};
     "2027" := {[ "High Moisture Corn" := 1500000; "Dry Corn" := 3400000;
                  "Silage Corn" := 550000 ]} ]}.

Definition default_entries : list HedgeData := Eval vm_compute in
  [ mkHedgeData "Hog Finishing" "2025" "Futures" "Jul" 500000 "Long"
      (Some (to_double (485 # 100))) "2025-01-15" "Q3 coverage";
    mkHedgeData "Hog Finishing" "2025" "Options" "Sep" 300000 "Long"
      (Some (to_double (492 # 100))) "2025-02-01" "Put protection";
    mkHedgeData "Feedlot" "2025" "Futures" "May" 400000 "Long"
      (Some (to_double (478 # 100))) "2025-01-20" "Spring feed lock";
    mkHedgeData "Feedlot" "2025" "HTA" "Jul" 250000 "Long"
      (Some (to_double (490 # 100))) "2025-02-10" "";
    mkHedgeData "Farming" "2025" "Futures" "Dec" 600000 "Short"
      (Some (to_double (505 # 100))) "2025-01-10" "Harvest hedge";
    mkHedgeData "Farming" "2025" "Basis Contract" "Nov" 350000 "Short"
      (Some (to_double (- 15 # 100))) "2025-02-05" "Basis lock";
    mkHedgeData "Hog Finishing" "2026" "Futures" "Mar" 200000 "Long"
      (Some (to_double (510 # 100))) "2025-03-01" "Early 2026 coverage";
    mkHedgeData "Farming" "2026" "Futures" "Dec" 400000 "Short"
      (Some (to_double (515 # 100))) "2025-03-05" "Forward sale" ].

(** [entries.forEach(e => { const id = genId(); obj[id] = e; })], run when
    the module loads, at time [t0], with the counter at 0. *)
Definition defaultHedgesObj (t0 : Z) : gmap string HedgeData :=
  list_to_map
    (imap (fun i e => ("id_" +:+ pretty (S i) +:+ "_" +:+ pretty t0, e))
          default_entries).

Definition emptyHedge (selectedYear today : string) : HedgeForm :=
  mkHedgeForm None "Hog Finishing" selectedYear "Futures" "Jul" "" "Long" ""
              today "".

(** The component at mount; [today] is
    [new Date().toISOString().slice(0, 10)]. *)
Definition initial_app (t0 : Z) (today : string) : App :=
  mkApp "dashboard" (Some "2025") false None "All" false ""
        (emptyHedge "2025" today)
        (init defaultConsumption) (init defaultProduction)
        (init (defaultHedgesObj t0)) (init DEFAULT_CROP_YEARS) (init [])
        (length default_entries).

(** *** Reference formulas from the specification *)

Definition sumZ (l : list Z) : Z := foldr Z.add 0 l.

(** Step 4 of the exposure algorithm: [+quantity] for a Long record,
    [-quantity] for a Short one. *)
Definition signed_quantity (h : Hedge) : Z :=
  if (direction h =? "Long")%string then quantity h
  else if (direction h =? "Short")%string then - quantity h
  else 0.

Definition spec_entityHedge (ledger : list Hedge) (y e : string) : Z :=
  sumZ (signed_quantity <$>
          filter (fun h : Hedge => cropYear h = y ∧ entity h = e) ledger).

(** How the reducer of [hedgeByEntity] signs one record: anything that is not
    Long is subtracted. *)
Definition code_sign (h : Hedge) : Z :=
  let qty := or0 (quantity h) in
  if (direction h =? "Long")%string then qty else - qty.

(** The same sum with the reducer's own signing. *)
Definition code_entityHedge (ledger : list Hedge) (y e : string) : Z :=
  sumZ (code_sign <$>
          filter (fun h : Hedge => cropYear h = y ∧ entity h = e) ledger).

(** A quantity field whose parsed value is not a number, or is not
    positive. *)
Definition invalid_quantity (text : string) : Prop :=
  match parseInt text with
  | None => True
  | Some q => q <= 0
  end.

(** The text, white space skipped, starts with a minus sign. *)
Definition has_minus_sign (text : string) : bool :=
  match trim_ws text with
  | String "-" _ => true
  | _ => false
  end.

(** [consumption?.[e]?.[y]], [None] for [undefined]. *)
Definition stored_consumption (consumption : gmap string (gmap string Z))
    (e y : string) : option Z :=
  consumption !! e ≫= (.!! y).

(** Records typed as the data model has them. *)
Definition well_directed (ledger : list Hedge) : Prop :=
  Forall (fun h : Hedge => direction h ∈ DIRECTIONS) ledger.

(** Ascending order as [Array.prototype.sort] leaves year strings. *)
Definition year_le (a b : string) : Prop := String.leb a b = true.

(** *** Example data of the specification's scenarios *)

Definition scenario_consumption : gmap string (gmap string Z) :=
  {[ "Hog Finishing" := {[ "2025" := 2600000 ]} ]}.

Definition scenario_production : gmap string (gmap string Z) :=
  {[ "2025" := {[ "Dry Corn" := 3000000 ]} ]}.

Definition scenario_farm_short : Hedge :=
  mkHedge "id_9_1700000000000"
    (mkHedgeData "Farming" "2025" "Futures" "Dec" 600000 "Short" None
                 "2025-01-10" "").

Definition scenario_other_year : Hedge :=
  mkHedge "id_10_1700000000000"
    (mkHedgeData "Hog Finishing" "2026" "Futures" "Mar" 200000 "Long" None
                 "2025-03-01" "").

Definition scenario_env : Env :=
  mkEnv 1700000000000 "2023-11-14T22:13:20.000Z" true.

Definition scenario_app : App := initial_app 1700000000000 "2023-11-14".

(** The form filled with a negative quantity. *)
Definition scenario_app_negative_quantity : App :=
  set_hedgeForm
    (mkHedgeForm None "Farming" "2025" "Futures" "Dec" "-600000" "Short" "5.05"
                 "2023-11-14" "")
    scenario_app.

(** The array element of the fifth default entry. *)
Definition scenario_default_farm : Hedge := Eval vm_compute in
  mkHedge "id_5_1700000000000"
    (mkHedgeData "Farming" "2025" "Futures" "Dec" 600000 "Short"
                 (Some (to_double (505 # 100))) "2025-01-10" "Harvest hedge").

(** Stand-ins for the two functions the handlers leave abstract, to run the
    handlers on examples. *)
Definition scenario_parseFloat (text : string) : jsnum :=
  match parseInt text with
  | Some n => of_Z n
  | None => NaN
  end.

Definition scenario_fmtFull (n : Z) : string := pretty n.

(** A ledger as the backend can deliver it after a reload: besides the
    defaults it holds a record that an earlier page load filed under the id
    this page load's generator hands out next at the same clock reading. *)
Definition scenario_reloaded_ledger : gmap string HedgeData :=
  <["id_9_1700000000000" := data scenario_other_year]>
    (defaultHedgesObj 1700000000000).

(** The component once that ledger has arrived, the form filled for a new
    hedge. *)
Definition scenario_app_reloaded : App :=
  set_hedgeForm
    (mkHedgeForm None "Farming" "2025" "Futures" "Dec" "600000" "Short" "5.05"
                 "2023-11-14" "")
    (set_hedgesObj
       (onValue (defaultHedgesObj 1700000000000)
                (Some scenario_reloaded_ledger) (hedgesObj scenario_app))
       scenario_app).

(** A hedges object whose stored record carries an [id] of its own. *)
Definition scenario_own_id : jsval :=
  JObj {[ "k1" := JObj {[ "id" := JStr "zz"; "quantity" := JNum 5 ]} ]}.

(** *** Further handlers and derived views *)

Definition set_newYear (y : string) (st : App) : App :=
  mkApp (activeTab st) (selectedYear st) (hedgeModalOpen st) (editingHedge st)
        (entityFilter st) (showYearManager st) y (hedgeForm st)
        (consumption st) (production st) (hedgesObj st) (cropYears st)
        (auditLog st) (_id st).

Definition set_editingHedge (k : option string) (st : App) : App :=
  mkApp (activeTab st) (selectedYear st) (hedgeModalOpen st) k
        (entityFilter st) (showYearManager st) (newYear st) (hedgeForm st)
        (consumption st) (production st) (hedgesObj st) (cropYears st)
        (auditLog st) (_id st).

Definition set_production (h : hook (gmap string (gmap string Z)))
    (st : App) : App :=
  mkApp (activeTab st) (selectedYear st) (hedgeModalOpen st) (editingHedge st)
        (entityFilter st) (showYearManager st) (newYear st) (hedgeForm st)
        (consumption st) h (hedgesObj st) (cropYears st)
        (auditLog st) (_id st).

(** [s.trim()]: strips the same code units as [parseInt] skips. *)
Definition trim (s : string) : string :=
  String.rev (trim_ws (String.rev (trim_ws s))).

Definition is_digit (c : ascii) : bool :=
  let n := nat_of_ascii c in ((48 <=? n) && (n <=? 57))%nat.

(** [/^\d{4}$/.test(y)] *)
Definition four_digits (y : string) : bool :=
  match y with
  | String a (String b (String c (String d EmptyString))) =>
      is_digit a && is_digit b && is_digit c && is_digit d
  | _ => false
  end.

#[global] Instance year_le_dec (a b : string) : Decision (year_le a b) :=
  decide (String.leb a b = true).

(** [arr.sort()] on strings: ascending by code units.  The order is total
    and antisymmetric, so every sorting algorithm returns the same array;
    merge sort stands for the engine's. *)
Definition js_sort (l : list string) : list string := merge_sort year_le l.

Definition addCropYear (env : Env) (st : App) : App :=
  let y := trim (newYear st) in
  if (y =? "")%string || bool_decide (y ∈ value (cropYears st))
     || negb (four_digits y)
  then st
  else
    let updated := js_sort (value (cropYears st) ++ [y]) in
    let st1 :=
      set_cropYears
        (setAndSync cropYears_debounce (now env) (Val updated) (cropYears st))
        st in
    let st2 := set_newYear "" st1 in
    addAudit env "Year Added" "System" ("Crop year " +:+ y +:+ " added") st2.

Definition updateProduction (env : Env) (year type val : string) (st : App)
  : App :=
  let v := parseInt_or0 val in
  set_production
    (setAndSync production_debounce (now env)
       (Fn (fun prev =>
              <[year := <[type := v]> (default ∅ (prev !! year))]> prev))
       (production st))
    st.



Definition filteredHedges (hedges : list Hedge)
    (selectedYear entityFilter : string) : list Hedge :=
  let h := filter (fun x : Hedge => cropYear x = selectedYear) hedges in
  if negb (entityFilter =? "All")%string
  then filter (fun x : Hedge => entity x = entityFilter) h
  else h.

(** [String(n)] on an integer below 10^21 in absolute value, where
    JavaScript prints plain decimal digits. *)
Definition string_of_int (n : Z) : string := pretty n.

(** Truthiness of a number: 0 and NaN are falsy. *)
Definition jsnum_truthy (x : jsnum) : bool :=
  match x with
  | Fin q => negb (Qeq_bool q 0)
  | NaN => false
  | _ => true
  end.

Section edit_form.
(** [String(x)] on a price, left abstract. *)
Variable price_to_string : jsnum -> string.

(** [String(h.price || "")] *)
Definition price_text (p : option jsnum) : string :=
  match p with
  | Some x => if jsnum_truthy x then price_to_string x else ""
  | None => ""
  end.

Definition openEditHedge (h : Hedge) (st : App) : App :=
  set_hedgeModalOpen true
    (set_hedgeForm
       (mkHedgeForm (Some (id h)) (entity h) (cropYear h) (contractType h)
                    (contractMonth h) (string_of_int (quantity h))
                    (direction h) (price_text (price h)) (dateEntered h)
                    (notes h))
       (set_editingHedge (Some (id h)) st)).

End edit_form.


(** Every year of the list is four decimal digits. *)
Definition all_four_digits (ys : list string) : Prop :=
  Forall (fun y => four_digits y = true) ys.

(** A year list as the handlers keep it. *)
Definition crop_years_ok (ys : list string) : Prop :=
  ys ≠ [] ∧ NoDup ys ∧ StronglySorted year_le ys ∧ all_four_digits ys.

(** The text [genId] builds from the counter and the clock. *)
Definition id_text (n : nat) (t : Z) : string :=
  "id_" +:+ pretty n +:+ "_" +:+ pretty t.

(** An id the generator has handed out while its counter was at most [n]. *)
Definition issued (n : nat) (k : string) : Prop :=
  ∃ m t, (m ≤ n)%nat ∧ k = id_text m t.

Fixpoint all_digits (s : string) : bool :=
  match s with
  | String c r => is_digit c && all_digits r
  | EmptyString => true
  end.

Definition set_activeTab (t : string) (st : App) : App :=
  mkApp t (selectedYear st) (hedgeModalOpen st) (editingHedge st)
        (entityFilter st) (showYearManager st) (newYear st) (hedgeForm st)
        (consumption st) (production st) (hedgesObj st) (cropYears st)
        (auditLog st) (_id st).

Definition set_entityFilter (e : string) (st : App) : App :=
  mkApp (activeTab st) (selectedYear st) (hedgeModalOpen st) (editingHedge st)
        e (showYearManager st) (newYear st) (hedgeForm st)
        (consumption st) (production st) (hedgesObj st) (cropYears st)
        (auditLog st) (_id st).

Definition set_showYearManager (b : bool) (st : App) : App :=
  mkApp (activeTab st) (selectedYear st) (hedgeModalOpen st) (editingHedge st)
        (entityFilter st) b (newYear st) (hedgeForm st)
        (consumption st) (production st) (hedgesObj st) (cropYears st)
        (auditLog st) (_id st).

(** [openNewHedge], for a defined selected year [y]; [today] is the date
    part of the clock. *)
Definition openNewHedge (y today : string) (st : App) : App :=
  set_hedgeModalOpen true
    (set_hedgeForm (emptyHedge y today) (set_editingHedge None st)).

Section ui.
Variable parseFloat : string -> jsnum.
Variable fmtFull : Z -> string.
Variable price_to_string : jsnum -> string.

(** What a user can do to the component, one event at a time.  Buttons and
    options exist only for what is shown: a year of the list, a row of the
    hedge table.  Editing a form field leaves the form's [id] alone. *)
Inductive ui_step : App -> App -> Prop :=
| ui_tab st t : ui_step st (set_activeTab t st)
| ui_entity_filter st e : ui_step st (set_entityFilter e st)
| ui_year_manager st :
    ui_step st (set_showYearManager (negb (showYearManager st)) st)
| ui_select_year st y :
    y ∈ value (cropYears st) -> ui_step st (set_selectedYear (Some y) st)
| ui_type_year st text : ui_step st (set_newYear text st)
| ui_add_year st env : ui_step st (addCropYear env st)
| ui_remove_year st env y :
    y ∈ value (cropYears st) -> ui_step st (removeCropYear env y st)
| ui_open_new st y today :
    selectedYear st = Some y -> ui_step st (openNewHedge y today st)
| ui_open_edit st h :
    h ∈ hedges (value (hedgesObj st)) ->
    ui_step st (openEditHedge price_to_string h st)
| ui_edit_form st form :
    f_id form = f_id (hedgeForm st) -> ui_step st (set_hedgeForm form st)
| ui_close_modal st : ui_step st (set_hedgeModalOpen false st)
| ui_save st env : ui_step st (saveHedge parseFloat fmtFull env st)
| ui_delete st env h :
    h ∈ hedges (value (hedgesObj st)) ->
    ui_step st (deleteHedge fmtFull env h st)
| ui_consumption st env e y val :
    ui_step st (updateConsumption env e y val st)
| ui_production st env y t val :
    ui_step st (updateProduction env y t val st).

End ui.

(** *** Saving when React runs an updater more than once

    [genId] in the body of [saveHedge] runs once per click.  The updater
    given to [setHedgesObj] is pure, so running it again only repeats the
    backend write.  The updater given to [setAuditLog] calls
    [createAuditEntry]: every run draws a further id and reads the clock
    again, and the entry kept is that of the last run. *)

(** One run of the updater of [addAudit] on the previous log [prev]. *)
Definition addAudit_run (action entity details : string)
    (prev : list AuditEntry) (st : App) (env : Env) : App :=
  let '(e, st1) := createAuditEntry env action entity details st in
  set_auditLog
    (setAndSync auditLog_debounce (now env) (Val (e :: prev)) (auditLog st1))
    st1.

(** [addAudit] when its updater is run once per element of [earlier] and
    then once more, each run reading its own clock, the last one [env];
    [addAudit] above is the case of no earlier run. *)
Definition addAudit_runs (earlier : list Env) (env : Env)
    (action entity details : string) (st : App) : App :=
  foldl (addAudit_run action entity details (value (auditLog st))) st
        (earlier ++ [env]).

Section handlers_runs.
Variable parseFloat : string -> jsnum.
Variable fmtFull : Z -> string.

(** [saveHedge] when the ledger's updater is run [hedge_reruns] times more
    than once and the audit log's once per element of [audit_earlier]
    before its last run, which reads [audit_env]; [saveHedge] above is the
    case of one run each, all reading [env]. *)
Definition saveHedge_runs (hedge_reruns : nat) (audit_earlier : list Env)
    (audit_env : Env) (env : Env) (st : App) : App :=
  match parseInt (f_quantity (hedgeForm st)) with
  | None => st
  | Some qty =>
      if (qty =? 0) || (qty <=? 0) then st
      else
        let entry := entry_of parseFloat (hedgeForm st) qty in
        let st' :=
          match editing st with
          | Some k =>
              addAudit_runs audit_earlier audit_env "Hedge Modified"
                (entity entry)
                (summary fmtFull entry qty)
                (set_hedgesObj
                   (setAndSync_runs hedge_reruns hedges_debounce (now env)
                      (Fn (fun prev => <[k := entry]> prev)) (hedgesObj st))
                   st)
          | None =>
              let '(newId, st1) := genId env st in
              addAudit_runs audit_earlier audit_env "Hedge Created"
                (entity entry)
                (summary fmtFull entry qty)
                (set_hedgesObj
                   (setAndSync_runs hedge_reruns hedges_debounce (now env)
                      (Fn (fun prev => <[newId := entry]> prev))
                      (hedgesObj st1))
                   st1)
          end in
        set_hedgeModalOpen false st'
  end.

End handlers_runs.

(** Every record of the ledger has a positive quantity. *)
Definition quantities_positive (ledger : gmap string HedgeData) : Prop :=
  ∀ k d, ledger !! k = Some d -> 0 < quantity d.

(** Every key of the ledger, the key being edited and every audit id were
    handed out by this page load's generator, so with a counter not above
    the current one, and no audit id occurs twice.  It holds at mount, on
    the default data; a ledger delivered by the backend need not satisfy
    it. *)
Definition ids_issued (st : App) : Prop :=
  (∀ k, is_Some (value (hedgesObj st) !! k) -> issued (_id st) k) ∧
  (∀ k, editingHedge st = Some k -> issued (_id st) k) ∧
  Forall (fun a => issued (_id st) (a_id a)) (value (auditLog st)) ∧
  NoDup (a_id <$> value (auditLog st)).

End Tracker.

Import Js SyncedCollection Tracker.

(** * Facts about the exposure calculation *)
Section calc_facts.

Lemma or0_id v : or0 v = v.
Proof. unfold or0. destruct (Z.eqb_spec v 0); congruence. Qed.

Lemma sumZ_cons x l : sumZ (x :: l) = x + sumZ l.
Proof. reflexivity. Qed.

Lemma foldl_add_sumZ {A} (f : A -> Z) (l : list A) (a : Z) :
  foldl (fun s x => s + f x) a l = a + sumZ (f <$> l).
Proof.
  revert a. induction l as [|x l IH]; intros a.
  - cbn. lia.
  - cbn [foldl]. rewrite IH, fmap_cons, sumZ_cons. lia.
Qed.

Lemma hedgeByEntity_sum (hs : list Hedge) (e : string) :
  hedgeByEntity hs e =
  sumZ (code_sign <$> filter (fun h : Hedge => entity h = e) hs).
Proof. unfold hedgeByEntity. by rewrite (foldl_add_sumZ code_sign). Qed.

Lemma code_sign_signed (h : Hedge) :
  direction h ∈ DIRECTIONS -> code_sign h = signed_quantity h.
Proof.
  unfold code_sign, signed_quantity, DIRECTIONS. rewrite or0_id.
  intros Hd. destruct (String.eqb_spec (direction h) "Long") as [|Hn]; [done|].
  destruct (String.eqb_spec (direction h) "Short") as [|Hs]; [done|].
  repeat (apply elem_of_cons in Hd as [?|Hd]; [done|]).
  by apply elem_of_nil in Hd.
Qed.

Lemma hedgeByEntity_year (ledger : list Hedge) (y e : string) :
  hedgeByEntity (filter (fun h : Hedge => cropYear h = y) ledger) e =
  code_entityHedge ledger y e.
Proof.
  rewrite hedgeByEntity_sum. unfold code_entityHedge.
  rewrite list_filter_filter. do 2 f_equal.
  apply list_filter_iff. tauto.
Qed.

Lemma code_entityHedge_spec (ledger : list Hedge) (y e : string) :
  well_directed ledger ->
  code_entityHedge ledger y e = spec_entityHedge ledger y e.
Proof.
  intros Hwd. unfold code_entityHedge, spec_entityHedge.
  induction Hwd as [|h l Hh Hl IH]; [done|].
  rewrite !filter_cons.
  destruct (decide (cropYear h = y ∧ entity h = e)); [|done].
  by rewrite !fmap_cons, !sumZ_cons, IH, code_sign_signed.
Qed.

Lemma hedgeByEntity_no_year (hs : list Hedge) (y e : string) :
  Forall (fun h : Hedge => cropYear h ≠ y) hs ->
  hedgeByEntity (filter (fun h : Hedge => cropYear h = y) hs) e = 0.
Proof.
  intros Hn. replace (filter (fun h : Hedge => cropYear h = y) hs) with (@nil Hedge); [done|].
  induction Hn as [|h l Hh Hl IH]; [done|].
  by rewrite filter_cons_False.
Qed.

Lemma hedgePct_zero (hedge m : Z) : m = 0 -> hedgePct hedge m = of_Z 0.
Proof. intros ->. reflexivity. Qed.

End calc_facts.

(** C1: for the snapshot with consumption {Hog Finishing: {2025: 2600000}},
    no Feedlot consumption, production {2025: {Dry Corn: 3000000}} and a
    ledger holding no record for 2025, the exposure calculation for 2025
    gives totalCons = 2600000, totalProd = 3000000, netCash = 400000,
    hogNet = -2600000, farmNet = 3000000 and netPosition = 400000. *)
Theorem calc_scenario_empty_ledger (ledger : list Hedge) :
  Forall (fun h : Hedge => cropYear h ≠ "2025") ledger ->
  let c := calc "2025" scenario_consumption scenario_production ledger in
  totalCons c = 2600000 ∧ totalProd c = 3000000 ∧ netCash c = 400000 ∧
  hogNet c = -2600000 ∧ farmNet c = 3000000 ∧ netPosition c = 400000.
Proof.
  intros Hempty c. subst c. unfold calc.
  cbn [totalCons totalProd netCash hogNet farmNet netPosition].
  rewrite !hedgeByEntity_no_year by done.
  repeat split; vm_compute; reflexivity.
Qed.

Lemma calc_scenario_empty_ledger_witness :
  Forall (fun h : Hedge => cropYear h ≠ "2025") [scenario_other_year] ∧
  netPosition
    (calc "2025" scenario_consumption scenario_production
          [scenario_other_year]) = 400000.
Proof.
  assert (Forall (fun h : Hedge => cropYear h ≠ "2025") [scenario_other_year])
    as Hempty by (repeat constructor; discriminate).
  split; [exact Hempty|].
  apply (calc_scenario_empty_ledger [scenario_other_year] Hempty).
Defined.

(** C2: for every ledger and year y, each entity's hedge position is the sum,
    over the records whose cropYear is y and whose entity is that entity, of
    +quantity for a Long record and -quantity for any other one, which is
    +quantity for Long and -quantity for Short on a ledger whose directions
    are Long or Short; a single Farming record for 2025 of 600000 Short
    gives farmHedge = -600000 and, with production 3000000 for 2025,
    farmNet = 2400000. *)
Theorem hedge_position_by_entity (y : string)
    (consumption production : gmap string (gmap string Z))
    (ledger : list Hedge) :
  let c := calc y consumption production ledger in
  (hogHedge c = code_entityHedge ledger y "Hog Finishing" ∧
   feedHedge c = code_entityHedge ledger y "Feedlot" ∧
   farmHedge c = code_entityHedge ledger y "Farming") ∧
  (well_directed ledger ->
   hogHedge c = spec_entityHedge ledger y "Hog Finishing" ∧
   feedHedge c = spec_entityHedge ledger y "Feedlot" ∧
   farmHedge c = spec_entityHedge ledger y "Farming") ∧
  (let c' := calc "2025" scenario_consumption scenario_production
                  [scenario_farm_short] in
   farmHedge c' = -600000 ∧ farmNet c' = 2400000).
Proof.
  intros c. subst c. unfold calc at 1 2 3 4 5 6.
  cbn [hogHedge feedHedge farmHedge].
  rewrite !hedgeByEntity_year.
  split; [done|]. split.
  - intros Hwd. by rewrite !code_entityHedge_spec.
  - split; vm_compute; reflexivity.
Qed.

Lemma hedge_position_by_entity_witness :
  well_directed [scenario_farm_short; scenario_other_year] ∧
  farmHedge (calc "2025" defaultConsumption defaultProduction
                  [scenario_farm_short; scenario_other_year])
  = spec_entityHedge [scenario_farm_short; scenario_other_year] "2025"
                     "Farming".
Proof.
  assert (well_directed [scenario_farm_short; scenario_other_year]) as Hwd.
  { unfold well_directed, DIRECTIONS. repeat constructor. }
  split; [exact Hwd|].
  exact (proj2 (proj2 (proj1 (proj2
           (hedge_position_by_entity "2025" defaultConsumption
              defaultProduction _)) Hwd))).
Defined.

(** C3: for every snapshot and every entity, when the entity's physical
    magnitude is 0 (consumption for a consumer, total production for the
    producer) its hedge coverage ratio is exactly the number 0, not NaN and
    not an infinity, whatever its hedge quantities: the guard returns the
    literal and no division takes place. *)
Theorem hedge_ratio_zero_magnitude (y : string)
    (consumption production : gmap string (gmap string Z))
    (ledger : list Hedge) :
  let c := calc y consumption production ledger in
  (hogCons c = 0 -> hogHedgePct c = of_Z 0) ∧
  (feedCons c = 0 -> feedHedgePct c = of_Z 0) ∧
  (totalProd c = 0 -> farmHedgePct c = of_Z 0).
Proof.
  intros c. subst c. unfold calc.
  cbn [hogCons feedCons totalProd hogHedgePct feedHedgePct farmHedgePct].
  repeat split; auto using hedgePct_zero.
Qed.

Lemma hedge_ratio_zero_magnitude_witness :
  let c := calc "2025" scenario_consumption scenario_production
                (hedges (defaultHedgesObj 1700000000000)) in
  (feedCons c = 0 ∧ feedHedge c = 650000) ∧ feedHedgePct c = of_Z 0.
Proof.
  intros c. assert (feedCons c = 0) as Hz by (vm_compute; reflexivity).
  split; [split; [exact Hz|vm_compute; reflexivity]|].
  exact (proj1 (proj2 (hedge_ratio_zero_magnitude "2025" scenario_consumption
                         scenario_production
                         (hedges (defaultHedgesObj 1700000000000)))) Hz).
Defined.

(** * Facts about the synced-state hook *)
Section hook_facts.
Context {V : Type}.
Implicit Types (h : hook V) (u : updater V) (calls : list (Z * updater V)).

Lemma advance_idle t h : timers h = [] -> advance t h = h.
Proof.
  destruct h as [v l i r ts n ws]; simpl; intros ->.
  unfold advance; simpl. by rewrite app_nil_r.
Qed.

Lemma hook_inv_length h : hook_inv h -> (length (timers h) ≤ 1)%nat.
Proof. intros [->|(t & -> & _)]; simpl; lia. Qed.

Lemma clearTimeout_current (t : timer V) :
  clearTimeout (Some (timer_id t)) [t] = [].
Proof.
  unfold clearTimeout. rewrite filter_cons, filter_nil.
  by rewrite decide_False by (intros Hne; by apply Hne).
Qed.

Lemma advance_inv t h : hook_inv h -> hook_inv (advance t h).
Proof.
  intros [Hts|(x & Hts & Hr)]; unfold hook_inv, advance; simpl; rewrite Hts.
  - by left.
  - rewrite !filter_cons, !filter_nil.
    destruct (decide (due x <= t)) as [Hd|Hd].
    + rewrite decide_False by tauto. by left.
    + rewrite decide_True by done. right. eauto.
Qed.

Lemma onValue_inv dv data h : hook_inv h -> hook_inv (onValue dv data h).
Proof.
  unfold hook_inv, onValue.
  destruct data; [|destruct (isInitialLoad h)]; simpl; auto.
Qed.

Lemma setAndSync_inv debounce t u h :
  hook_inv h -> hook_inv (setAndSync debounce t u h).
Proof.
  intros Hinv. unfold setAndSync.
  destruct (0 <? debounce); [|exact Hinv].
  right. unfold hook_inv in Hinv. simpl.
  destruct Hinv as [->|(x & -> & ->)].
  - destruct (timerRef h); simpl; eauto.
  - rewrite clearTimeout_current. simpl. eauto.
Qed.

(** Unmounting drops the pending write, if any. *)
Lemma unmount_drops_pending h : hook_inv h -> timers (unmount h) = [].
Proof.
  intros [Hts|(x & Hts & Hr)]; unfold unmount; simpl; rewrite Hts.
  - by destruct (timerRef h).
  - rewrite Hr. apply clearTimeout_current.
Qed.

Lemma step_inv debounce dv h (e : event V) :
  hook_inv h -> hook_inv (step debounce dv h e).
Proof.
  destruct e; simpl;
    auto using advance_inv, onValue_inv, setAndSync_inv.
Qed.

Lemma run_inv debounce dv h (es : list (event V)) :
  hook_inv h -> hook_inv (run debounce dv h es).
Proof.
  revert h. induction es as [|e es IH]; intros h Hinv; [done|].
  apply IH, step_inv, Hinv.
Qed.

Lemma burst_inv debounce h calls :
  hook_inv h -> hook_inv (burst debounce h calls).
Proof.
  revert h. induction calls as [|c r IH]; intros h Hinv; [done|].
  apply IH, setAndSync_inv, advance_inv, Hinv.
Qed.

Section debounced.
Variable debounce : Z.
Hypothesis debounce_pos : 0 < debounce.

Lemma setAndSync_debounced t u h :
  setAndSync debounce t u h =
  Hook (apply_updater u (value h)) (loading h) (isInitialLoad h)
       (Some (next_timer h))
       (clearTimeout (timerRef h) (timers h) ++
          [Timer (next_timer h) (t + debounce) (apply_updater u (value h))])
       (S (next_timer h)) (writes h).
Proof.
  unfold setAndSync. by rewrite (proj2 (Z.ltb_lt 0 debounce)).
Qed.

(** A call from a quiescent instance schedules the one live timer. *)
Lemma call_when_idle t u h :
  timers h = [] ->
  let h' := setAndSync debounce t u (advance t h) in
  pending_at debounce t h' ∧ writes h' = writes h ∧
  value h' = apply_updater u (value h).
Proof.
  intros Hidle h'. subst h'. rewrite advance_idle by done.
  rewrite setAndSync_debounced. unfold pending_at. simpl.
  rewrite Hidle. split; [|done].
  exists (next_timer h). by destruct (timerRef h).
Qed.

(** A call arriving before the live timer is due replaces it. *)
Lemma call_within_window t t' u h :
  pending_at debounce t h -> t <= t' < t + debounce ->
  let h' := setAndSync debounce t' u (advance t' h) in
  pending_at debounce t' h' ∧ writes h' = writes h ∧
  value h' = apply_updater u (value h).
Proof.
  intros (i & Hts & Hr) Ht h'. subst h'.
  assert (advance t' h = h) as ->.
  { destruct h as [v l il r ts n ws]; simpl in *; subst.
    unfold advance; simpl. rewrite !filter_cons, !filter_nil. simpl.
    repeat case_decide; try lia.
    simpl. by rewrite app_nil_r. }
  rewrite setAndSync_debounced. unfold pending_at. simpl.
  rewrite Hts, Hr.
  change i with (timer_id (Timer i (t + debounce) (value h))) at 1.
  rewrite clearTimeout_current. simpl. eauto.
Qed.

Lemma burst_within_window t h calls :
  pending_at debounce t h -> within_window debounce t calls ->
  let h' := burst debounce h calls in
  pending_at debounce (last_time t calls) h' ∧ writes h' = writes h ∧
  value h' = apply_all calls (value h).
Proof.
  revert t h. induction calls as [|c r IH]; intros t h Hp Hw; [done|].
  destruct Hw as [Hc Hw].
  destruct (call_within_window t c.1 c.2 h Hp Hc) as (Hp' & Hws & Hv).
  destruct (IH _ _ Hp' Hw) as (Hp'' & Hws' & Hv').
  simpl. split; [exact Hp''|]. split; [congruence|].
  rewrite Hv'. by rewrite Hv.
Qed.

(** Once its delay has elapsed, the live timer fires: one write, carrying
    the current value. *)
Lemma pending_fires t T h :
  pending_at debounce t h -> t + debounce <= T ->
  writes (advance T h) = writes h ++ [value h] ∧ timers (advance T h) = [].
Proof.
  intros (i & Hts & _) HT. unfold advance; simpl. rewrite Hts.
  rewrite !filter_cons, !filter_nil. simpl.
  repeat case_decide; try lia; tauto.
Qed.

End debounced.

End hook_facts.

(** C4: with a positive debounce, a burst of setter calls, each arriving
    before the delay started by the previous one has elapsed, issues no
    backend write while it lasts and exactly one once the delay after the
    last call has elapsed; that write carries the value produced by the last
    call, and at no time is more than one write pending. *)
Theorem debounce_coalesces {V : Type} (debounce : Z) (h : hook V)
    (t0 : Z) (u0 : updater V) (calls : list (Z * updater V)) (T : Z) :
  0 < debounce ->
  timers h = [] ->
  within_window debounce t0 calls ->
  last_time t0 calls + debounce <= T ->
  let all := (t0, u0) :: calls in
  let h1 := burst debounce h all in
  writes h1 = writes h ∧
  value h1 = apply_all all (value h) ∧
  writes (advance T h1) = writes h ++ [value h1] ∧
  timers (advance T h1) = [] ∧
  (∀ k, (length (timers (burst debounce h (take k all))) ≤ 1)%nat) ∧
  (∀ (dv : V) (es : list (event V)),
     (length (timers (run debounce dv (init dv) es)) ≤ 1)%nat).
Proof.
  intros Hpos Hidle Hwin HT all h1.
  destruct (call_when_idle debounce Hpos t0 u0 h Hidle) as (Hp & Hws & Hv).
  destruct (burst_within_window debounce Hpos t0 _ calls Hp Hwin)
    as (Hp' & Hws' & Hv').
  destruct (pending_fires debounce _ T _ Hp' HT) as [Hfire Hnone].
  change (burst debounce (setAndSync debounce t0 u0 (advance t0 h)) calls)
    with h1 in *.
  repeat split.
  - congruence.
  - rewrite Hv'. unfold all. simpl. by rewrite Hv.
  - rewrite Hfire. by rewrite Hws', Hws.
  - exact Hnone.
  - intros k. apply hook_inv_length, burst_inv. by left.
  - intros dv es. apply hook_inv_length, run_inv. by left.
Qed.

Lemma debounce_coalesces_witness :
  let calls := [(100, Fn (fun v => v + 1)); (300, Val 7)] in
  (0 < 500 ∧ timers (init 0) = [] ∧ within_window 500 0 calls ∧
   last_time 0 calls + 500 <= 800) ∧
  writes (advance 800 (burst 500 (init 0) ((0, Val 1) :: calls))) = [7].
Proof.
  intros calls.
  assert (0 < 500) as H1 by lia.
  assert (timers (init 0) = []) as H2 by reflexivity.
  assert (within_window 500 0 calls) as H3 by (simpl; lia).
  assert (last_time 0 calls + 500 <= 800) as H4 by (simpl; lia).
  split; [done|].
  destruct (debounce_coalesces 500 (init 0) 0 (Val 1) calls 800 H1 H2 H3 H4)
    as (_ & _ & -> & _).
  reflexivity.
Defined.

(** C5, as the code has it: once a first notification has been processed the
    instance is Synced and stays so; a later notification that delivers a
    value replaces the cached value with it, and one that delivers null
    leaves the cached value as it was; neither issues a backend write nor
    touches the pending timer. *)
Theorem later_notification {V : Type} (dv : V) (first data : option V)
    (h0 : hook V) :
  let h := onValue dv first h0 in
  let h' := onValue dv data h in
  (loading h = false ∧ isInitialLoad h = false) ∧
  (loading h' = false ∧ isInitialLoad h' = false) ∧
  value h' = match data with Some d => d | None => value h end ∧
  writes h' = writes h ∧ timers h' = timers h ∧ timerRef h' = timerRef h.
Proof.
  intros h h'. subst h h'. unfold onValue.
  destruct first, data; simpl; try destruct (isInitialLoad h0); simpl; done.
Qed.

(** C5 as stated fails: the instance has adopted 7 from a first notification;
    a later notification delivering null does not overwrite the cached value
    with the delivered snapshot. *)
Lemma null_snapshot_keeps_cached_value :
  let h := onValue 0 (Some 7) (init 0) in
  let delivered : option Z := None in
  let h' := onValue 0 delivered h in
  isInitialLoad h = false ∧ value h' = 7 ∧ Some (value h') ≠ delivered.
Proof. by vm_compute. Qed.

(** * Facts about the mutation handlers *)
Section handler_facts.
Variable parseFloat : string -> jsnum.
Variable fmtFull : Z -> string.

Lemma setAndSync_immediate {V} t (u : updater V) (h : hook V) :
  value (setAndSync 0 t u h) = apply_updater u (value h) ∧
  writes (setAndSync 0 t u h) = writes h ++ [apply_updater u (value h)] ∧
  timers (setAndSync 0 t u h) = timers h.
Proof. done. Qed.

(** [addAudit] touches the audit log and the id counter only. *)
Lemma addAudit_frame env a e d st :
  let st' := addAudit env a e d st in
  hedgesObj st' = hedgesObj st ∧ cropYears st' = cropYears st ∧
  consumption st' = consumption st ∧ production st' = production st ∧
  selectedYear st' = selectedYear st.
Proof. done. Qed.

Lemma saveHedge_invalid env st :
  invalid_quantity (f_quantity (hedgeForm st)) ->
  saveHedge parseFloat fmtFull env st = st.
Proof.
  unfold invalid_quantity, saveHedge.
  destruct (parseInt (f_quantity (hedgeForm st))) as [q|]; [|done].
  intros Hq. destruct (Z.eqb_spec q 0); [done|].
  destruct (Z.leb_spec q 0); [done|lia].
Qed.

(** The ledger after a save that went through: one key set to the entry
    built from the form. *)
Lemma saveHedge_valid env st q :
  parseInt (f_quantity (hedgeForm st)) = Some q -> 0 < q ->
  ∃ k, value (hedgesObj (saveHedge parseFloat fmtFull env st)) =
         <[k := entry_of parseFloat (hedgeForm st) q]> (value (hedgesObj st)) ∧
       writes (hedgesObj (saveHedge parseFloat fmtFull env st)) =
         writes (hedgesObj st) ++
         [value (hedgesObj (saveHedge parseFloat fmtFull env st))].
Proof.
  intros Hparse Hq. unfold saveHedge. rewrite Hparse.
  destruct (Z.eqb_spec q 0); [lia|]. destruct (Z.leb_spec q 0); [lia|].
  simpl. destruct (editing st) as [k|]; eexists; split; reflexivity.
Qed.

Lemma find_head_filter (y : string) (ys : list string) :
  List.find (fun yr => negb (yr =? y)%string) ys =
  head (filter (fun yr => yr ≠ y) ys).
Proof.
  induction ys as [|a ys IH]; [done|].
  rewrite filter_cons. simpl.
  destruct (String.eqb_spec a y) as [->|Hne]; simpl.
  - by rewrite decide_False by (intros Hn; by apply Hn).
  - by rewrite decide_True.
Qed.

Lemma filter_ne_nonempty (y : string) (ys : list string) :
  NoDup ys -> (1 < length ys)%nat -> filter (fun yr => yr ≠ y) ys ≠ [].
Proof.
  intros Hnd Hlen. destruct ys as [|a [|b ys]]; simpl in Hlen; try lia.
  apply NoDup_cons in Hnd as [Ha _].
  assert (a ≠ b) as Hab by (intros ->; apply Ha; left).
  rewrite filter_cons. destruct (decide (a ≠ y)) as [|Hay]; [done|].
  rewrite filter_cons. destruct (decide (b ≠ y)) as [|Hby]; [done|].
  apply dec_stable in Hay, Hby. congruence.
Qed.

Lemma year_le_refl (x : string) : year_le x x.
Proof. unfold year_le. by destruct (String.leb_total x x). Qed.

Lemma sorted_filter_head (P : string -> Prop) `{!∀ x, Decision (P x)}
    (ys : list string) (x : string) :
  StronglySorted year_le ys -> head (filter P ys) = Some x ->
  ∀ z, z ∈ filter P ys -> year_le x z.
Proof.
  induction 1 as [|a l Hl IH Ha]; [done|].
  rewrite filter_cons. destruct (decide (P a)); [|exact IH].
  simpl. intros [= ->] z [->|Hz]%elem_of_cons; [apply year_le_refl|].
  apply list_elem_of_filter in Hz as [_ Hz].
  by eapply Forall_forall in Ha.
Qed.

Lemma digit_val_nonneg c d : digit_val c = Some d -> 0 <= d.
Proof.
  unfold digit_val. repeat case_match; intros [= <-]; lia.
Qed.

Lemma digits_nonneg radix s acc n :
  0 <= radix -> (∀ a, acc = Some a -> 0 <= a) ->
  digits radix s acc = Some n -> 0 <= n.
Proof.
  intros Hr. revert acc. induction s as [|c s IH]; intros acc Hacc; simpl.
  - apply Hacc.
  - destruct (digit_val c) as [d|] eqn:Hd; [|apply Hacc].
    destruct (d <? radix); [|apply Hacc].
    apply IH. intros a [= <-]. apply digit_val_nonneg in Hd.
    destruct acc as [a|]; simpl; [specialize (Hacc a eq_refl)|]; nia.
Qed.

Lemma strip_radix_nonneg s : 0 <= (strip_radix s).1.
Proof. unfold strip_radix. repeat case_match; simpl; lia. Qed.

Lemma parseInt_sign (text : string) (n : Z) :
  parseInt text = Some n ->
  if has_minus_sign text then n <= 0 else 0 <= n.
Proof.
  unfold parseInt, has_minus_sign.
  destruct (strip_sign (trim_ws text)) as [sign s1] eqn:Hs.
  pose proof (strip_radix_nonneg s1) as Hr.
  destruct (strip_radix s1) as [radix s2]. simpl in Hr.
  destruct (digits radix s2 None) as [m|] eqn:Hm; [|done].
  intros [= <-]. apply digits_nonneg in Hm; [|done|done].
  unfold strip_sign in Hs.
  repeat case_match; simplify_eq; lia.
Qed.

End handler_facts.

(** C6: a save whose parsed quantity is not a number or is not positive
    changes nothing: the ledger, the audit log and every other part of the
    state, backend writes included, are as before; whatever the form holds, a
    record that a save puts in the ledger has a positive quantity, and what a
    save writes to the backend is the resulting ledger. *)
Theorem saveHedge_quantity_guard (parseFloat : string -> jsnum)
    (fmtFull : Z -> string) (env : Env) (st : App) :
  let st' := saveHedge parseFloat fmtFull env st in
  (invalid_quantity (f_quantity (hedgeForm st)) -> st' = st) ∧
  (∀ k d, value (hedgesObj st') !! k = Some d ->
          value (hedgesObj st) !! k = Some d ∨ 0 < quantity d) ∧
  (∀ w, w ∈ writes (hedgesObj st') ->
        w ∈ writes (hedgesObj st) ∨ w = value (hedgesObj st')).
Proof.
  intros st'. split; [apply saveHedge_invalid|].
  destruct (parseInt (f_quantity (hedgeForm st))) as [q|] eqn:Hq.
  - destruct (decide (0 < q)) as [Hpos|Hneg].
    + destruct (saveHedge_valid parseFloat fmtFull env st q Hq Hpos)
        as (k0 & Hv & Hw).
      fold st' in Hv, Hw. split.
      * intros k d. rewrite Hv.
        destruct (decide (k0 = k)) as [->|Hne].
        -- rewrite lookup_insert_eq. intros [= <-]. by right.
        -- rewrite lookup_insert_ne by done. by left.
      * intros w. rewrite Hw, elem_of_app, list_elem_of_singleton. tauto.
    + assert (st' = st) as ->; [|by auto].
      apply saveHedge_invalid. unfold invalid_quantity. rewrite Hq. lia.
  - assert (st' = st) as ->; [|by auto].
    apply saveHedge_invalid. unfold invalid_quantity. by rewrite Hq.
Qed.

Lemma saveHedge_quantity_guard_witness :
  invalid_quantity (f_quantity (hedgeForm scenario_app_negative_quantity)) ∧
  saveHedge scenario_parseFloat scenario_fmtFull scenario_env
            scenario_app_negative_quantity
  = scenario_app_negative_quantity.
Proof.
  assert (invalid_quantity
            (f_quantity (hedgeForm scenario_app_negative_quantity))) as Hbad.
  { unfold invalid_quantity. vm_compute. discriminate. }
  split; [exact Hbad|].
  exact (proj1 (saveHedge_quantity_guard scenario_parseFloat scenario_fmtFull
                  scenario_env scenario_app_negative_quantity) Hbad).
Defined.

(** C7: for every ledger and every id present in it, a confirmed delete of
    the hedge with that id removes the entry at that key and leaves every
    other key with the very record it had. *)
Theorem deleteHedge_removes_only_that_key (fmtFull : Z -> string) (env : Env)
    (h : Hedge) (st : App) :
  confirm env = true ->
  is_Some (value (hedgesObj st) !! id h) ->
  let st' := deleteHedge fmtFull env h st in
  value (hedgesObj st') !! id h = None ∧
  (∀ k, k ≠ id h ->
        value (hedgesObj st') !! k = value (hedgesObj st) !! k) ∧
  size (value (hedgesObj st')) = pred (size (value (hedgesObj st))) ∧
  writes (hedgesObj st') = writes (hedgesObj st) ++ [value (hedgesObj st')].
Proof.
  intros Hc Hin st'. subst st'. unfold deleteHedge. rewrite Hc. simpl.
  split; [apply lookup_delete_eq|]. split.
  - intros k Hk. by apply lookup_delete_ne.
  - split; [by apply map_size_delete_Some|done].
Qed.

Lemma deleteHedge_removes_only_that_key_witness :
  let st' := deleteHedge scenario_fmtFull scenario_env scenario_default_farm
                         scenario_app in
  (confirm scenario_env = true ∧
   is_Some (value (hedgesObj scenario_app) !! id scenario_default_farm)) ∧
  value (hedgesObj st') !! id scenario_default_farm = None.
Proof.
  intros st'.
  assert (confirm scenario_env = true) as Hc by reflexivity.
  assert (is_Some (value (hedgesObj scenario_app) !! id scenario_default_farm))
    as Hin by (vm_compute; eauto).
  split; [done|].
  exact (proj1 (deleteHedge_removes_only_that_key scenario_fmtFull
                  scenario_env scenario_default_farm scenario_app Hc Hin)).
Defined.

(** C8: on a crop-year set (no year listed twice, at least one year),
    removing a year when only one remains changes nothing, so the set is
    never left empty; when more than one year remains and the confirmed
    removal is of the selected year, the selection becomes the first of the
    remaining years, which is the least of them when the set is sorted
    ascending. *)
Theorem removeCropYear_keeps_a_year (env : Env) (y : string) (st : App) :
  let ys := value (cropYears st) in
  let st' := removeCropYear env y st in
  let ys' := value (cropYears st') in
  NoDup ys -> ys ≠ [] ->
  ((length ys ≤ 1)%nat -> st' = st) ∧
  (ys' ≠ [] ∧ NoDup ys') ∧
  (confirm env = true -> (1 < length ys)%nat -> selectedYear st = Some y ->
   ys' = filter (fun yr => yr ≠ y) ys ∧
   ∃ x, selectedYear st' = Some x ∧ head ys' = Some x ∧
        (StronglySorted year_le ys -> ∀ z, z ∈ ys' -> year_le x z)).
Proof.
  intros ys st' ys' Hnd Hne. subst st' ys'. unfold removeCropYear. fold ys.
  destruct (Nat.leb_spec (length ys) 1) as [Hle|Hgt].
  { split; [done|]. split; [done|]. lia. }
  split; [lia|].
  destruct (confirm env); simpl.
  - fold ys. split.
    + destruct (decide (selectedYear st = Some y)); simpl; fold ys;
        (split; [by apply filter_ne_nonempty|by apply NoDup_filter]).
    + intros _ _ Hsel. rewrite decide_True by done. simpl. fold ys.
      split; [done|]. rewrite find_head_filter.
      destruct (filter (fun yr => yr ≠ y) ys) as [|x l] eqn:Hf.
      { by apply filter_ne_nonempty in Hf. }
      exists x. repeat split. intros Hs z Hz. rewrite <- Hf in Hz.
      eapply sorted_filter_head; [exact Hs| |exact Hz]. by rewrite Hf.
  - split; [done|]. discriminate.
Qed.

Lemma removeCropYear_keeps_a_year_witness :
  let st' := removeCropYear scenario_env "2025" scenario_app in
  (NoDup (value (cropYears scenario_app)) ∧
   value (cropYears scenario_app) ≠ []) ∧
  value (cropYears st') ≠ [] ∧
  value (cropYears st') = ["2024"; "2026"; "2027"] ∧
  selectedYear st' = Some "2024".
Proof.
  intros st'.
  assert (NoDup (value (cropYears scenario_app))) as Hnd.
  { apply (bool_decide_unpack _). vm_compute. exact I. }
  assert (value (cropYears scenario_app) ≠ []) as Hne by discriminate.
  split; [done|].
  destruct (removeCropYear_keeps_a_year scenario_env "2025" scenario_app
              Hnd Hne) as (_ & [Hne' _] & Hsel).
  split; [exact Hne'|].
  destruct Hsel as (Hys & x & Hx & Hhead & _);
    [reflexivity|simpl; lia|reflexivity|].
  split; [exact Hys|].
  subst st'. rewrite Hx, <- Hhead, Hys. reflexivity.
Defined.

(** C9, as the code has it: a consumption update stores, for that entity and
    year, the integer parseInt reads from the text, or 0 when the text is
    empty or not numeric; the stored value is non-negative unless the first
    character of the text after any leading white space is a minus sign,
    and in that case it is the non-positive integer the text denotes, as
    for " -5" and for a no-break space followed by "-5", both stored as -5;
    no other entity-year cell changes, and the backend write is deferred. *)
Theorem updateConsumption_stores_parsed (env : Env) (e y val : string)
    (st : App) :
  let st' := updateConsumption env e y val st in
  stored_consumption (value (consumption st')) e y = Some (parseInt_or0 val) ∧
  (parseInt val = None -> parseInt_or0 val = 0) ∧
  (has_minus_sign val = false -> 0 <= parseInt_or0 val) ∧
  (has_minus_sign val = true -> parseInt_or0 val <= 0) ∧
  (∀ e' y', e' ≠ e ∨ y' ≠ y ->
     stored_consumption (value (consumption st')) e' y' =
     stored_consumption (value (consumption st)) e' y') ∧
  writes (consumption st') = writes (consumption st) ∧
  parseInt_or0 " -5" = -5 ∧
  parseInt_or0 (String (ascii_of_nat 160) "-5") = -5.
Proof.
  intros st'. subst st'. unfold updateConsumption, stored_consumption. simpl.
  split; [by rewrite lookup_insert_eq; simpl; rewrite lookup_insert_eq|].
  split; [by unfold parseInt_or0; intros ->|].
  assert (∀ b, has_minus_sign val = b ->
               if b then parseInt_or0 val <= 0 else 0 <= parseInt_or0 val)
    as Hsign.
  { intros b <-. unfold parseInt_or0.
    destruct (parseInt val) as [n|] eqn:Hn; simpl.
    - by apply parseInt_sign.
    - by destruct (has_minus_sign val). }
  split; [exact (Hsign false)|]. split; [exact (Hsign true)|].
  split; [|split; [done|split; by vm_compute]].
  intros e' y' Hne. destruct (decide (e = e')) as [<-|He].
  - rewrite lookup_insert_eq. simpl.
    rewrite lookup_insert_ne by (destruct Hne; congruence).
    by destruct (value (consumption st) !! e).
  - by rewrite lookup_insert_ne.
Qed.

Lemma updateConsumption_stores_parsed_witness :
  has_minus_sign " 2600000" = false ∧ 0 <= parseInt_or0 " 2600000".
Proof.
  assert (has_minus_sign " 2600000" = false) as Hs by reflexivity.
  split; [exact Hs|].
  exact (proj1 (proj2 (proj2
           (updateConsumption_stores_parsed scenario_env "Hog Finishing"
              "2025" " 2600000" scenario_app))) Hs).
Defined.

(** C9 as stated fails: the text "-5" is stored as -5, a negative quantity. *)
Lemma updateConsumption_stores_negative :
  stored_consumption
    (value (consumption
       (updateConsumption scenario_env "Hog Finishing" "2025" "-5"
                          scenario_app)))
    "Hog Finishing" "2025" = Some (-5)
  ∧ ¬ (0 <= -5).
Proof. split; [by vm_compute|lia]. Qed.

Section hedgesObjToArray_facts.

Lemma with_id_props (k : string) (d : jsval) :
  (own_props d !! "id" = None ->
   own_props (with_id k d) !! "id" = Some (JStr k)) ∧
  (∀ x, own_props d !! "id" = Some x ->
        own_props (with_id k d) !! "id" = Some x) ∧
  (∀ f, f ≠ "id" -> own_props (with_id k d) !! f = own_props d !! f).
Proof.
  unfold with_id. simpl. repeat split.
  - intros Hnone. rewrite lookup_union_r by done. apply lookup_singleton_eq.
  - intros x Hx. by apply lookup_union_Some_l.
  - intros f Hf. rewrite lookup_union, lookup_singleton_ne by done.
    by destruct (own_props d !! f).
Qed.

Lemma not_object_cases (obj : jsval) :
  (∃ m, obj = JObj m) ∨ truthy obj = false ∨ typeof obj ≠ "object".
Proof. destruct obj; simpl; eauto. Qed.

End hedgesObjToArray_facts.

(** C10, as the code has it: converting the hedges object to an array is
    total: null, undefined and every value that is not an object give the
    empty array; an object gives one element per key, and that element has
    the fields of the stored record together with the key as its id field
    when the stored record has no id field of its own (a stored id field is
    kept instead of the key). *)
Theorem hedgesObjToArray_total (obj : jsval) :
  ((∃ m, obj = JObj m) ∨ truthy obj = false ∨ typeof obj ≠ "object") ∧
  (truthy obj = false ∨ typeof obj ≠ "object" -> hedgesObjToArray obj = []) ∧
  (∀ m, obj = JObj m ->
     length (hedgesObjToArray obj) = size m ∧
     (∀ el, el ∈ hedgesObjToArray obj ↔
            ∃ k d, m !! k = Some d ∧ el = with_id k d) ∧
     (∀ k d, m !! k = Some d ->
        (own_props d !! "id" = None ->
         own_props (with_id k d) !! "id" = Some (JStr k)) ∧
        (∀ x, own_props d !! "id" = Some x ->
              own_props (with_id k d) !! "id" = Some x) ∧
        (∀ f, f ≠ "id" -> own_props (with_id k d) !! f = own_props d !! f))).
Proof.
  split; [apply not_object_cases|]. split.
  - unfold hedgesObjToArray. intros [->|Hty]; [done|].
    destruct (truthy obj); [|done]. simpl.
    by destruct (String.eqb_spec (typeof obj) "object").
  - intros m ->. unfold hedgesObjToArray. simpl. repeat split.
    + by rewrite length_fmap, length_map_to_list.
    + intros ([k d] & -> & Hin%elem_of_map_to_list)%list_elem_of_fmap. eauto.
    + intros (k & d & Hkd & ->). apply list_elem_of_fmap.
      exists (k, d). split; [done|]. by apply elem_of_map_to_list.
    + by apply with_id_props.
    + by apply with_id_props.
    + by apply with_id_props.
Qed.

Lemma hedgesObjToArray_total_witness :
  (truthy JNull = false ∨ typeof JNull ≠ "object") ∧
  hedgesObjToArray JNull = [].
Proof.
  assert (truthy JNull = false ∨ typeof JNull ≠ "object") as Hn
    by (left; reflexivity).
  split; [exact Hn|].
  exact (proj1 (proj2 (hedgesObjToArray_total JNull)) Hn).
Defined.

(** C10 as stated fails: the record stored under key k1 has an id field zz of
    its own; the one element of the array carries zz, not the key, as its
    id. *)
Lemma hedgesObjToArray_own_id_wins :
  ∃ el, hedgesObjToArray scenario_own_id = [el] ∧
        own_props el !! "id" = Some (JStr "zz") ∧
        own_props el !! "id" ≠ Some (JStr "k1").
Proof.
  eexists. split; [by vm_compute|]. split; [by vm_compute|].
  vm_compute. discriminate.
Qed.

(** * Further facts about the synced-state hook *)
Section hook_more.
Context {V : Type}.
Implicit Types (h : hook V) (u : updater V) (calls : list (Z * updater V)).

Lemma advance_value t h :
  value (advance t h) = value h ∧ loading (advance t h) = loading h ∧
  isInitialLoad (advance t h) = isInitialLoad h ∧
  timerRef (advance t h) = timerRef h.
Proof. done. Qed.

Lemma setAndSync_value debounce t u h :
  value (setAndSync debounce t u h) = apply_updater u (value h) ∧
  loading (setAndSync debounce t u h) = loading h ∧
  isInitialLoad (setAndSync debounce t u h) = isInitialLoad h.
Proof. unfold setAndSync. by destruct (0 <? debounce). Qed.

Lemma setAndSync_now debounce t u h :
  debounce <= 0 ->
  setAndSync debounce t u h =
  Hook (apply_updater u (value h)) (loading h) (isInitialLoad h) (timerRef h)
       (timers h) (next_timer h) (writes h ++ [apply_updater u (value h)]).
Proof.
  intros Hd. unfold setAndSync.
  by destruct (Z.ltb_spec 0 debounce); [lia|].
Qed.

Lemma filter_split_length {A} (P : A -> Prop) `{!∀ x, Decision (P x)}
    (l : list A) :
  (length (filter P l) + length (filter (fun x => ¬ P x) l))%nat = length l.
Proof.
  induction l as [|x l IH]; [done|].
  rewrite !filter_cons. destruct (decide (P x)).
  - rewrite decide_False by tauto. simpl. lia.
  - rewrite decide_True by done. simpl. lia.
Qed.

Lemma advance_activity t h : activity (advance t h) = activity h.
Proof.
  unfold activity, advance. simpl. rewrite length_app, length_fmap.
  pose proof (filter_split_length (fun x : timer V => due x <= t) (timers h)).
  lia.
Qed.

Lemma setAndSync_activity debounce t u h :
  hook_inv h ->
  (activity (setAndSync debounce t u h) ≤ S (activity h))%nat.
Proof.
  intros Hinv. unfold activity, setAndSync.
  destruct (0 <? debounce); simpl.
  - destruct Hinv as [->|(x & -> & ->)].
    + destruct (timerRef h); simpl; lia.
    + rewrite clearTimeout_current. simpl. lia.
  - rewrite length_app. simpl. lia.
Qed.

Lemma burst_value debounce h calls :
  value (burst debounce h calls) = apply_all calls (value h) ∧
  loading (burst debounce h calls) = loading h ∧
  isInitialLoad (burst debounce h calls) = isInitialLoad h.
Proof.
  revert h. induction calls as [|c r IH]; intros h; [done|].
  change (burst debounce h (c :: r))
    with (burst debounce (setAndSync debounce c.1 c.2 (advance c.1 h)) r).
  destruct (IH (setAndSync debounce c.1 c.2 (advance c.1 h)))
    as (-> & -> & ->).
  by destruct (setAndSync_value debounce c.1 c.2 (advance c.1 h))
    as (-> & -> & ->).
Qed.

Lemma sync_now debounce t (next : V) (k : nat) h :
  debounce <= 0 ->
  Nat.iter k (sync debounce t next) h =
  Hook (value h) (loading h) (isInitialLoad h) (timerRef h) (timers h)
       (next_timer h) (writes h ++ replicate k next).
Proof.
  intros Hd. induction k as [|k IH]; simpl.
  - rewrite app_nil_r. by destruct h.
  - rewrite IH. unfold sync. destruct (Z.ltb_spec 0 debounce); [lia|].
    simpl. rewrite <- app_assoc. do 2 f_equal.
    change (next :: replicate k next) with (replicate (S k) next).
    by rewrite replicate_S_end.
Qed.

Lemma setAndSync_runs_once debounce t u h :
  setAndSync_runs 0 debounce t u h = setAndSync debounce t u h.
Proof.
  unfold setAndSync_runs, setAndSync, sync. simpl.
  by destruct (0 <? debounce).
Qed.

Lemma setAndSync_runs_now debounce t u (k : nat) h :
  debounce <= 0 ->
  setAndSync_runs k debounce t u h =
  Hook (apply_updater u (value h)) (loading h) (isInitialLoad h) (timerRef h)
       (timers h) (next_timer h)
       (writes h ++ replicate (S k) (apply_updater u (value h))).
Proof.
  intros Hd. unfold setAndSync_runs. by rewrite sync_now.
Qed.

End hook_more.

(** X1: with no debounce (the option is 0, or not positive) the backend
    write is issued by the updater itself, at once and once per run of it:
    a series of calls, one per event, from an instance with no timer
    pending writes, in order, the value each call produces, as many times
    as React runs that call's updater, and never schedules a timer; the
    cached value is the
    updaters applied in order whatever the number of runs.  When no
    updater is rerun, as in a production build, this is one write per
    call; a development build under StrictMode, which runs some updaters
    twice, repeats those calls' writes. *)
Theorem immediate_write_per_call {V : Type} (debounce : Z) (h : hook V)
    (calls : list (nat * (Z * updater V))) :
  debounce <= 0 ->
  timers h = [] ->
  let h' := burst_runs debounce h calls in
  writes h' = writes h ++ written_values calls (value h) ∧
  timers h' = [] ∧
  value h' = apply_all (snd <$> calls) (value h) ∧
  (Forall (fun c => c.1 = 0%nat) calls ->
   h' = burst debounce h (snd <$> calls) ∧
   writes h' = writes h ++ running_values (snd <$> calls) (value h) ∧
   length (writes h') = (length (writes h) + length calls)%nat).
Proof.
  intros Hd. revert h. induction calls as [|c r IH]; intros h Hidle h'.
  - subst h'. simpl. by rewrite app_nil_r, Nat.add_0_r.
  - assert (burst_runs debounce h (c :: r) =
            burst_runs debounce (setAndSync_runs c.1 debounce c.2.1 c.2.2 h) r)
      as Heq.
    { unfold burst_runs. simpl. by rewrite advance_idle. }
    subst h'. rewrite Heq, setAndSync_runs_now by done.
    set (h1 := Hook _ _ _ _ _ _ _).
    destruct (IH h1 Hidle) as (Hw & Ht & Hv & Hone).
    split; [|split; [exact Ht|split; [exact Hv|]]].
    + rewrite Hw. subst h1. simpl. by rewrite <- app_assoc.
    + intros [Hc Hr]%Forall_cons. destruct (Hone Hr) as (Hb & Hw1 & Hl).
      assert (h1 = setAndSync debounce c.2.1 c.2.2 h) as Hh1.
      { subst h1. rewrite Hc, setAndSync_now by done. reflexivity. }
      split; [|split].
      * rewrite Hb. unfold burst. rewrite fmap_cons. simpl.
        by rewrite advance_idle, Hh1.
      * rewrite Hw1. subst h1. rewrite Hc, fmap_cons. simpl.
        by rewrite <- app_assoc.
      * rewrite Hl. subst h1. rewrite Hc. simpl. rewrite length_app. simpl.
        lia.
Qed.

Lemma immediate_write_per_call_witness :
  (0 <= 0 ∧ timers (init 10) = []) ∧
  writes (burst_runs 0 (init 10)
            [(0%nat, (5, Fn (fun v => v + 1))); (1%nat, (6, Val 3))])
  = [11; 3; 3].
Proof.
  assert (0 <= 0) as H0 by lia.
  assert (timers (init 10) = []) as Hi by reflexivity.
  split; [done|].
  exact (proj1 (immediate_write_per_call 0 (init 10)
                  [(0%nat, (5, Fn (fun v => v + 1))); (1%nat, (6, Val 3))]
                  H0 Hi)).
Defined.

(** X2: the cached value is updated optimistically: whatever the debounce
    setting, the timers pending and the moments of the calls, after a series
    of setter calls the cached value is the result of applying the updaters
    in order, and the loading flag is as it was. *)
Theorem optimistic_value {V : Type} (debounce : Z) (h : hook V)
    (calls : list (Z * updater V)) :
  value (burst debounce h calls) = apply_all calls (value h) ∧
  loading (burst debounce h calls) = loading h ∧
  isInitialLoad (burst debounce h calls) = isInitialLoad h.
Proof. apply burst_value. Qed.

Section hook_flush.
Context {V : Type}.
Implicit Types (h : hook V) (u : updater V) (calls : list (Z * updater V)).

Lemma advance_not_due debounce t t' h :
  pending_at debounce t h -> t' < t + debounce -> advance t' h = h.
Proof.
  intros (i & Hts & Hr) Ht.
  destruct h as [v l il r ts n ws]; simpl in *; subst.
  unfold advance; simpl. rewrite !filter_cons, !filter_nil. simpl.
  repeat case_decide; try lia. simpl. by rewrite app_nil_r.
Qed.

Lemma call_any debounce t u h :
  0 < debounce -> hook_inv h ->
  pending_at debounce t (setAndSync debounce t u (advance t h)).
Proof.
  intros Hd Hinv. apply (advance_inv t) in Hinv.
  set (h0 := advance t h) in *.
  rewrite setAndSync_debounced by done. unfold pending_at.
  cbn [timers value timerRef].
  exists (next_timer h0). split; [|done].
  destruct Hinv as [->|(x & -> & ->)].
  - by destruct (timerRef h0).
  - by rewrite clearTimeout_current.
Qed.

Lemma pending_inv debounce t h : pending_at debounce t h -> hook_inv h.
Proof. intros (i & Hts & Hr). right. eexists. split; [exact Hts|done]. Qed.

Lemma burst_pending debounce t u h calls :
  0 < debounce -> hook_inv h ->
  pending_at debounce (last_time t calls) (burst debounce h ((t, u) :: calls)).
Proof.
  intros Hd. revert t u h. induction calls as [|[t' u'] r IH]; intros t u h Hinv.
  - by apply call_any.
  - change (burst debounce h ((t, u) :: (t', u') :: r))
      with (burst debounce (setAndSync debounce t u (advance t h))
                  ((t', u') :: r)).
    apply IH. by apply setAndSync_inv, advance_inv.
Qed.

Lemma burst_activity debounce h calls :
  hook_inv h ->
  (activity (burst debounce h calls) ≤ activity h + length calls)%nat.
Proof.
  revert h. induction calls as [|c r IH]; intros h Hinv; [simpl; lia|].
  change (burst debounce h (c :: r))
    with (burst debounce (setAndSync debounce c.1 c.2 (advance c.1 h)) r).
  pose proof (advance_inv c.1 h Hinv) as Hinv'.
  pose proof (setAndSync_activity debounce c.1 c.2 _ Hinv') as Ha.
  rewrite advance_activity in Ha.
  etrans; [apply IH; by apply setAndSync_inv|]. simpl. lia.
Qed.

Lemma notify_synced dv h (snaps : list (Z * option V)) :
  timers h = [] -> isInitialLoad h = false -> loading h = false ->
  let h' := notify dv h snaps in
  writes h' = writes h ∧ value h' = last_delivered (value h) snaps ∧
  loading h' = false ∧ isInitialLoad h' = false ∧ timers h' = [].
Proof.
  revert h. induction snaps as [|[t d] r IH]; intros h Hts Hil Hl h'; [done|].
  subst h'.
  change (notify dv h ((t, d) :: r))
    with (notify dv (onValue dv d (advance t h)) r).
  rewrite advance_idle by done.
  destruct (IH (onValue dv d h)) as (Hw & Hv & Hrest).
  - unfold onValue. destruct d; [|rewrite Hil]; done.
  - unfold onValue. destruct d; [|rewrite Hil]; done.
  - unfold onValue. destruct d; [|rewrite Hil]; done.
  - rewrite Hw, Hv. split; [|split; [|exact Hrest]].
    + unfold onValue. destruct d; [|rewrite Hil]; done.
    + unfold onValue. destruct d; [|rewrite Hil]; done.
Qed.

End hook_flush.

(** X3: with a positive debounce, whatever the spacing of the calls and
    whatever was pending before, once the delay after the last setter call
    has elapsed no timer is left, the last backend write carries the cached
    value (the result of all the calls), and no more writes have been issued
    than there were calls and timers pending at the start. *)
Theorem debounced_write_eventually {V : Type} (debounce : Z) (h : hook V)
    (t0 : Z) (u0 : updater V) (calls : list (Z * updater V)) (T : Z) :
  0 < debounce ->
  hook_inv h ->
  last_time t0 calls + debounce <= T ->
  let all := (t0, u0) :: calls in
  let h1 := advance T (burst debounce h all) in
  timers h1 = [] ∧
  last (writes h1) = Some (value h1) ∧
  value h1 = apply_all all (value h) ∧
  (length (writes h1) ≤ length (writes h) + length (timers h) + length all)%nat.
Proof.
  intros Hd Hinv HT all h1.
  pose proof (burst_pending debounce t0 u0 h calls Hd Hinv) as Hp.
  destruct (pending_fires debounce _ T _ Hp HT) as [Hfire Hnone].
  pose proof (burst_activity debounce h all Hinv) as Ha.
  pose proof (advance_activity T (burst debounce h all)) as Hb.
  assert (value h1 = value (burst debounce h all)) as Hv by done.
  subst h1 all.
  split; [exact Hnone|]. split; [|split].
  - rewrite Hfire, last_snoc. by rewrite Hv.
  - rewrite Hv. apply burst_value.
  - unfold activity in Ha, Hb. rewrite Hnone in Hb.
    cbn [length] in *. lia.
Qed.

Lemma debounced_write_eventually_witness :
  let h := init 0 in
  let calls := [(1000, Fn (fun v => v + 1))] in
  (0 < 500 ∧ hook_inv h ∧ last_time 0 calls + 500 <= 1500) ∧
  last (writes (advance 1500 (burst 500 h ((0, Val 1) :: calls)))) = Some 2.
Proof.
  intros h calls.
  assert (0 < 500) as H1 by lia.
  assert (hook_inv h) as H2 by (left; reflexivity).
  assert (last_time 0 calls + 500 <= 1500) as H3 by (simpl; lia).
  split; [done|].
  destruct (debounced_write_eventually 500 h 0 (Val 1) calls 1500 H1 H2 H3)
    as (_ & Hlast & _).
  rewrite Hlast. reflexivity.
Defined.

(** X4: seeding happens at most once, and only on a first notification that
    finds the path empty: over a series of remote notifications received by
    a freshly mounted, idle instance, the only backend write is the default
    value when the first snapshot is null, and none otherwise; afterwards
    the instance is loaded and caches the last non-null snapshot. *)
Theorem seed_only_on_first_null {V : Type} (dv : V) (h : hook V)
    (t : Z) (d : option V) (snaps : list (Z * option V)) :
  timers h = [] ->
  isInitialLoad h = true ->
  let h' := notify dv h ((t, d) :: snaps) in
  writes h' = writes h ++ match d with None => [dv] | Some _ => [] end ∧
  value h' = last_delivered (value h) ((t, d) :: snaps) ∧
  loading h' = false ∧ isInitialLoad h' = false.
Proof.
  intros Hts Hil h'. subst h'.
  change (notify dv h ((t, d) :: snaps))
    with (notify dv (onValue dv d (advance t h)) snaps).
  rewrite advance_idle by done.
  destruct (notify_synced dv (onValue dv d h) snaps)
    as (Hw & Hv & Hl & Hi & _).
  - unfold onValue. destruct d; [|rewrite Hil]; done.
  - unfold onValue. destruct d; [|rewrite Hil]; done.
  - unfold onValue. destruct d; [|rewrite Hil]; done.
  - rewrite Hw, Hv. split; [|split; [|done]].
    + unfold onValue. destruct d; [|rewrite Hil]; simpl;
        by rewrite ?app_nil_r.
    + unfold onValue. destruct d; [|rewrite Hil]; done.
Qed.

Lemma seed_only_on_first_null_witness :
  (timers (init 7) = [] ∧ isInitialLoad (init 7) = true) ∧
  writes (notify 7 (init 7) [(1, None); (2, Some 9); (3, None)]) = [7] ∧
  value (notify 7 (init 7) [(1, None); (2, Some 9); (3, None)]) = 9.
Proof.
  assert (timers (init 7) = []) as H1 by reflexivity.
  assert (isInitialLoad (init 7) = true) as H2 by reflexivity.
  split; [done|].
  destruct (seed_only_on_first_null 7 (init 7) 1 None
              [(2, Some 9); (3, None)] H1 H2) as (Hw & Hv & _).
  split; [exact Hw|exact Hv].
Defined.

(** X5: unmounting cancels the pending debounced write: after the cleanup
    no timer is live, and however much time passes no further backend write
    is issued; the cached value is untouched. *)
Theorem unmount_drops_write {V : Type} (h : hook V) (T : Z) :
  hook_inv h ->
  timers (unmount h) = [] ∧
  writes (advance T (unmount h)) = writes h ∧
  value (advance T (unmount h)) = value h.
Proof.
  intros Hinv. pose proof (unmount_drops_pending h Hinv) as Hnone.
  split; [exact Hnone|]. rewrite advance_idle by done. done.
Qed.

Lemma unmount_drops_write_witness :
  let h := burst 500 (init 0) [(0, Val 1)] in
  (hook_inv h ∧ length (timers h) = 1%nat) ∧
  writes (advance 10000 (unmount h)) = [].
Proof.
  intros h.
  assert (hook_inv h) as Hinv.
  { right. eexists. split; reflexivity. }
  split; [split; [exact Hinv|reflexivity]|].
  exact (proj1 (proj2 (unmount_drops_write h 10000 Hinv))).
Defined.

(** X6: a remote update that arrives while a debounced write is pending does
    not cancel it: the cache shows the remote value, but when the delay
    elapses the backend is written with the value the cache held when the
    timer was set. *)
Theorem pending_write_survives_remote_update {V : Type} (debounce : Z)
    (dv : V) (h : hook V) (t t' T : Z) (remote : V) :
  pending_at debounce t h ->
  t' < t + debounce ->
  t + debounce <= T ->
  let h1 := onValue dv (Some remote) (advance t' h) in
  value h1 = remote ∧ writes h1 = writes h ∧
  value (advance T h1) = remote ∧
  writes (advance T h1) = writes h ++ [value h].
Proof.
  intros Hp Ht' HT h1. subst h1.
  rewrite (advance_not_due debounce t t' h Hp Ht').
  destruct Hp as (i & Hts & Hr).
  unfold onValue, advance. simpl. rewrite Hts.
  rewrite !filter_cons, !filter_nil. simpl.
  repeat case_decide; try lia; tauto.
Qed.

Lemma pending_write_survives_remote_update_witness :
  let h := burst 500 (init 0) [(0, Val 1)] in
  (pending_at 500 0 h ∧ 100 < 0 + 500 ∧ 0 + 500 <= 500) ∧
  writes (advance 500 (onValue 0 (Some 42) (advance 100 h))) = [1].
Proof.
  intros h.
  assert (pending_at 500 0 h) as Hp.
  { eexists. split; reflexivity. }
  assert (100 < 0 + 500) as H1 by lia.
  assert (0 + 500 <= 500) as H2 by lia.
  split; [done|].
  exact (proj2 (proj2 (proj2
           (pending_write_survives_remote_update 500 0 h 0 100 500 42
              Hp H1 H2)))).
Defined.

(** * Further facts about the exposure calculation and its views *)
Section calc_more.

Lemma sumZ_app l1 l2 : sumZ (l1 ++ l2) = sumZ l1 + sumZ l2.
Proof.
  induction l1 as [|x l1 IH]; [done|].
  rewrite <- app_comm_cons, !sumZ_cons, IH. lia.
Qed.




(** The fields of [calc] that are numbers. *)
Lemma calc_figures (y : string)
    (consumption production : gmap string (gmap string Z))
    (ledger : list Hedge) :
  let c := calc y consumption production ledger in
  hogCons c = cons_of consumption "Hog Finishing" y ∧
  feedCons c = cons_of consumption "Feedlot" y ∧
  totalProd c = sum_values (default ∅ (production !! y)) ∧
  hogHedge c = code_entityHedge ledger y "Hog Finishing" ∧
  feedHedge c = code_entityHedge ledger y "Feedlot" ∧
  farmHedge c = code_entityHedge ledger y "Farming".
Proof.
  intros c. subst c. unfold calc.
  cbn [hogCons feedCons totalProd hogHedge feedHedge farmHedge].
  by rewrite !hedgeByEntity_year.
Qed.



End calc_more.




(** * Facts about rounding to a double *)
Section double_facts.

Lemma rne_nonneg (n d : Z) : 0 <= n -> 0 < d -> 0 <= rne n d.
Proof.
  intros Hn Hd. unfold rne. pose proof (Z.div_pos n d Hn Hd).
  repeat case_match; lia.
Qed.

Lemma round_pos_nonneg (n d : Z) (x : Q) :
  0 < n -> 0 < d -> round_pos n d = Some x -> (0 <= x)%Q.
Proof.
  intros Hn Hd. unfold round_pos.
  set (s := Z.max (floor_log2 n d) (- 1022) - 52).
  set (m := rne _ _).
  assert (0 <= m) as Hm.
  { apply rne_nonneg.
    - apply Z.mul_nonneg_nonneg; [lia|]. apply Z.pow_nonneg. lia.
    - apply Z.mul_pos_pos; [done|]. apply Z.pow_pos_nonneg; lia. }
  case_match; [done|]. intros [= <-].
  rewrite Qred_correct. unfold Qle. simpl.
  assert (0 <= 2 ^ Z.max 0 s) by (apply Z.pow_nonneg; lia). nia.
Qed.

Lemma to_double_nonneg (q : Q) : (0 <= q)%Q -> js_nonneg (to_double q).
Proof.
  intros Hq. rewrite <- (Qred_correct q) in Hq. unfold to_double.
  destruct (Qred q) as [n d]. unfold Qle in Hq. simpl in Hq. simpl.
  destruct (Z.compare_spec n 0) as [->|Hlt|Hgt]; [done|lia|].
  destruct (round_pos n (Z.pos d)) as [x|] eqn:Hx; [|done].
  simpl. eapply round_pos_nonneg; [| |exact Hx]; lia.
Qed.

Lemma to_double_Qeq (q q' : Q) : (q == q')%Q -> to_double q = to_double q'.
Proof. intros H. unfold to_double. by rewrite (Qred_complete _ _ H). Qed.

Lemma js_mul_nonneg (x : jsnum) (k : Z) :
  js_nonneg x -> 0 < k -> js_nonneg (js_mul x k).
Proof.
  intros Hx Hk. destruct x as [q| | |]; simpl in *; try done.
  - apply to_double_nonneg. apply Qmult_le_0_compat; [done|].
    unfold Qle. simpl. lia.
  - by destruct (Z.compare_spec k 0); [lia|lia|].
Qed.

Lemma js_div_nonneg (a b : Z) : 0 <= a -> 0 < b -> js_nonneg (js_div a b).
Proof.
  intros Ha Hb. unfold js_div. destruct (Z.eqb_spec b 0); [lia|].
  apply to_double_nonneg. apply Qle_shift_div_l.
  - unfold Qlt. simpl. lia.
  - rewrite Qmult_0_l. unfold Qle. simpl. lia.
Qed.

End double_facts.

(** X9: for a positive physical magnitude the coverage ratio is the double
    the code computes, the quotient of |hedge| by the magnitude rounded and
    its product by 100 rounded again: it is never NaN and never negative
    (it is Infinity when the product overflows), it does not depend on the
    sign of the hedge, it is 0 for a hedge of 0 and exactly 100 when the
    hedge matches the magnitude.  On the default data the hog ratio,
    800000 over 2600000, is the double written 30.76923076923077, not the
    rational 400/13; a hedge of 2^1020 over a magnitude of 1 gives
    Infinity. *)
Theorem hedgePct_positive_magnitude (hedge m : Z) :
  0 < m ->
  js_nonneg (hedgePct hedge m) ∧
  hedgePct (- hedge) m = hedgePct hedge m ∧
  (hedge = 0 -> hedgePct hedge m = of_Z 0) ∧
  (Z.abs hedge = m -> hedgePct hedge m = of_Z 100) ∧
  hedgePct 800000 2600000 = to_double (3076923076923077 # 100000000000000) ∧
  hedgePct (2 ^ 1020) 1 = PInf.
Proof.
  intros Hm. unfold hedgePct at 1 2 3 4 5.
  rewrite (proj2 (Z.ltb_lt 0 m)) by done.
  assert (¬ (inject_Z m == 0)%Q) as Hm0.
  { unfold Qeq, inject_Z. simpl. lia. }
  split; [|split; [|split; [|split; [|split]]]].
  - apply js_mul_nonneg; [|lia]. apply js_div_nonneg; lia.
  - by rewrite Z.abs_opp.
  - intros ->. unfold js_div. destruct (Z.eqb_spec m 0); [lia|].
    rewrite (to_double_Qeq _ 0); [by vm_compute|].
    simpl. unfold Qdiv. by rewrite Qmult_0_l.
  - intros ->. unfold js_div. destruct (Z.eqb_spec m 0); [lia|].
    rewrite (to_double_Qeq _ 1); [by vm_compute|].
    by apply Qmult_inv_r.
  - by vm_compute.
  - by vm_compute.
Qed.

Lemma hedgePct_positive_magnitude_witness :
  0 < 3000000 ∧ hedgePct (- 600000) 3000000 = hedgePct 600000 3000000.
Proof.
  assert (0 < 3000000) as Hm by lia.
  split; [exact Hm|].
  exact (proj1 (proj2 (hedgePct_positive_magnitude 600000 3000000 Hm))).
Defined.

Section views_more.




Lemma elem_of_hedges (m : gmap string HedgeData) (h : Hedge) :
  h ∈ hedges m ↔ m !! id h = Some (data h).
Proof.
  unfold hedges. split.
  - intros ([k d] & -> & Hin)%list_elem_of_fmap.
    by apply elem_of_map_to_list in Hin.
  - intros Hl. apply list_elem_of_fmap. exists (id h, data h).
    split; [by destruct h|]. by apply elem_of_map_to_list.
Qed.

End views_more.



(** X11: the hedge table shows, under the filter All, exactly the records
    the calculation uses for the selected year, and under an entity filter
    exactly the ledger's records of that year and entity; the signed
    quantities of the rows shown for an entity add up to that entity's hedge
    position. *)
Theorem filteredHedges_match_calc (y e : string)
    (consumption production : gmap string (gmap string Z))
    (ledger : list Hedge) :
  let c := calc y consumption production ledger in
  filteredHedges ledger y "All" = yearHedges c ∧
  (e ≠ "All" ->
   (∀ h : Hedge, h ∈ filteredHedges ledger y e ↔
                 h ∈ ledger ∧ cropYear h = y ∧ entity h = e) ∧
   sumZ (code_sign <$> filteredHedges ledger y e) =
   hedgeByEntity (yearHedges c) e) ∧
  sumZ (code_sign <$> filteredHedges ledger y "Hog Finishing") = hogHedge c ∧
  sumZ (code_sign <$> filteredHedges ledger y "Feedlot") = feedHedge c ∧
  sumZ (code_sign <$> filteredHedges ledger y "Farming") = farmHedge c.
Proof.
  intros c. subst c. unfold calc. cbn [yearHedges hogHedge feedHedge farmHedge].
  split; [done|].
  assert (∀ e', e' ≠ "All" ->
            filteredHedges ledger y e' =
            filter (fun x : Hedge => entity x = e')
                   (filter (fun x : Hedge => cropYear x = y) ledger)) as Hf.
  { intros e' He'. unfold filteredHedges.
    by destruct (String.eqb_spec e' "All"). }
  split; [|by rewrite !Hf, !hedgeByEntity_sum].
  intros He. rewrite Hf by done. split; [|by rewrite hedgeByEntity_sum].
  intros h. rewrite !list_elem_of_filter. tauto.
Qed.

Lemma filteredHedges_match_calc_witness :
  "Farming" ≠ "All" ∧
  sumZ (code_sign <$>
          filteredHedges [scenario_farm_short; scenario_other_year] "2025"
                         "Farming") = -600000.
Proof.
  assert ("Farming" ≠ "All") as Hne by discriminate.
  split; [exact Hne|].
  destruct (filteredHedges_match_calc "2025" "Farming" scenario_consumption
              scenario_production [scenario_farm_short; scenario_other_year])
    as (_ & Hent & _).
  destruct (Hent Hne) as [_ ->]. vm_compute. reflexivity.
Defined.

(** X12: the array built from a ledger has one element per key: as many
    elements as keys, no id twice, an element for (id, record) exactly when
    the ledger holds that record under that id, and the ledger is recovered
    from the array. *)
Theorem hedges_one_per_key (ledger : gmap string HedgeData) :
  length (hedges ledger) = size ledger ∧
  NoDup (id <$> hedges ledger) ∧
  (∀ h : Hedge, h ∈ hedges ledger ↔ ledger !! id h = Some (data h)) ∧
  list_to_map ((fun h : Hedge => (id h, data h)) <$> hedges ledger) = ledger.
Proof.
  unfold hedges. repeat split.
  - by rewrite length_fmap, length_map_to_list.
  - replace (id <$> ((fun e => mkHedge e.1 e.2) <$> map_to_list ledger))
      with ((map_to_list ledger).*1); [apply NoDup_fst_map_to_list|].
    induction (map_to_list ledger) as [|[k d] l IH]; [done|].
    rewrite !fmap_cons. simpl. by f_equal.
  - by intros ?%elem_of_hedges.
  - by intros ?%elem_of_hedges.
  - rewrite <- (list_to_map_to_list ledger) at 2. f_equal.
    induction (map_to_list ledger) as [|[k d] l IH]; [done|].
    rewrite !fmap_cons. simpl. by f_equal.
Qed.



(** * Identifiers and number texts *)
Section text_facts.

Lemma app_cons (a : ascii) (p s : string) :
  String a p +:+ s = String a (p +:+ s).
Proof. reflexivity. Qed.

Lemma app_empty (s : string) : "" +:+ s = s.
Proof. reflexivity. Qed.

Lemma app_String_assoc (p : string) (c : ascii) (s : string) :
  p +:+ String c s = (p +:+ String c "") +:+ s.
Proof.
  induction p as [|a p IH]; [done|]. by rewrite !app_cons, IH.
Qed.

Lemma all_digits_snoc (p : string) (c : ascii) :
  all_digits p = true -> is_digit c = true ->
  all_digits (p +:+ String c "") = true.
Proof.
  intros Hp Hc. induction p as [|a p IH].
  - rewrite app_empty. cbn. by rewrite Hc.
  - rewrite app_cons. cbn in *.
    apply andb_true_iff in Hp as [-> Hp]. by rewrite IH.
Qed.

Lemma pretty_N_char_digit (x : N) : is_digit (pretty_N_char x) = true.
Proof. unfold pretty_N_char. by repeat case_match. Qed.

Lemma pretty_N_char_val (x : N) :
  (x < 10)%N -> digit_val (pretty_N_char x) = Some (Z.of_N x).
Proof.
  intros Hx.
  assert (x = 0 ∨ x = 1 ∨ x = 2 ∨ x = 3 ∨ x = 4 ∨ x = 5 ∨ x = 6 ∨ x = 7
          ∨ x = 8 ∨ x = 9)%N as Hcases by lia.
  repeat destruct Hcases as [->|Hcases]; try reflexivity.
  by subst.
Qed.

(** [pretty_N_go x s] puts decimal digits in front of [s]. *)
Lemma pretty_N_go_digits (x : N) (s : string) :
  ∃ p, pretty_N_go x s = p +:+ s ∧ all_digits p = true.
Proof.
  revert s. induction (N.lt_wf_0 x) as [x _ IH]; intros s.
  destruct (decide (x = 0%N)) as [->|Hx].
  - exists "". by rewrite pretty_N_go_0.
  - rewrite pretty_N_go_step by lia.
    destruct (IH (x `div` 10)%N) with (s := String (pretty_N_char (x `mod` 10)) s)
      as (p & -> & Hp); [apply N.div_lt; lia|].
    eexists. split; [apply app_String_assoc|].
    apply all_digits_snoc; [done|apply pretty_N_char_digit].
Qed.

Lemma pretty_N_all_digits (x : N) : all_digits (pretty x) = true.
Proof.
  unfold pretty, pretty_N. case_decide; [done|].
  destruct (pretty_N_go_digits x "") as (p & -> & Hp).
  replace (p +:+ "") with p; [done|].
  clear. induction p as [|a p IH]; [done|]. by rewrite app_cons, <- IH.
Qed.

(** A digit string is cut off by the first underscore. *)
Lemma digits_until_underscore (p q r r' : string) :
  all_digits p = true -> all_digits q = true ->
  p +:+ String "_" r = q +:+ String "_" r' -> p = q.
Proof.
  revert q. induction p as [|a p IH]; intros [|b q] Hp Hq Heq;
    rewrite ?app_cons, ?app_empty in Heq; cbn in Hp, Hq.
  - done.
  - injection Heq as <- _. by apply andb_true_iff in Hq as [? _].
  - injection Heq as -> _. by apply andb_true_iff in Hp as [? _].
  - injection Heq as -> Heq.
    apply andb_true_iff in Hp as [_ Hp]. apply andb_true_iff in Hq as [_ Hq].
    f_equal. by apply IH.
Qed.

Lemma id_text_counter (n m : nat) (t t' : Z) :
  id_text n t = id_text m t' -> n = m.
Proof.
  unfold id_text. intros Heq. rewrite !app_cons, !app_empty in Heq.
  injection Heq as Heq.
  apply (inj pretty), (digits_until_underscore _ _ (pretty t) (pretty t'));
    [apply pretty_N_all_digits..|exact Heq].
Qed.

Lemma issued_mono (n m : nat) (k : string) :
  (n ≤ m)%nat -> issued n k -> issued m k.
Proof. intros Hnm (i & t & Hi & ->). exists i, t. split; [lia|done]. Qed.

Lemma issued_fresh (n : nat) (t : Z) (k : string) :
  issued n k -> k ≠ id_text (S n) t.
Proof. intros (i & t' & Hi & ->) Heq. apply id_text_counter in Heq. lia. Qed.

(** Reading back the decimal text of a positive integer. *)
Lemma digits_pretty_N_go (x : N) :
  (0 < x)%N ->
  ∃ k, ∀ s acc,
    digits 10 (pretty_N_go x s) acc =
    digits 10 s (Some (10 ^ k * default 0 acc + Z.of_N x)) ∧ 0 <= k.
Proof.
  induction (N.lt_wf_0 x) as [x _ IH]; intros Hx.
  assert (x `mod` 10 < 10)%N as Hmod by (by apply N.mod_lt).
  pose proof (N.div_mod x 10 ltac:(lia)) as Hdm.
  destruct (decide (x `div` 10 = 0)%N) as [Hz|Hnz].
  - exists 1. intros s acc. rewrite pretty_N_go_step, Hz, pretty_N_go_0 by done.
    cbn [digits]. rewrite pretty_N_char_val by lia.
    assert ((Z.of_N (x `mod` 10) <? 10) = true) as ->
      by (apply Z.ltb_lt; lia).
    split; [|lia]. do 2 f_equal. lia.
  - destruct (IH (x `div` 10)%N) as (k & Hk); [apply N.div_lt; lia|lia|].
    exists (k + 1). intros s acc. rewrite pretty_N_go_step by done.
    destruct (Hk (String (pretty_N_char (x `mod` 10)) s) acc) as [-> Hk0].
    cbn [digits]. rewrite pretty_N_char_val by lia.
    assert ((Z.of_N (x `mod` 10) <? 10) = true) as ->
      by (apply Z.ltb_lt; lia).
    split; [|lia]. do 2 f_equal. simpl default.
    rewrite Z.pow_add_r by lia. lia.
Qed.

Lemma pretty_N_go_head (x : N) (s : string) :
  (0 < x)%N ->
  ∃ c r, pretty_N_go x s = String c r ∧ is_digit c = true ∧ c ≠ "0"%char.
Proof.
  revert s. induction (N.lt_wf_0 x) as [x _ IH]; intros s Hx.
  rewrite pretty_N_go_step by done.
  destruct (decide (x `div` 10 = 0)%N) as [Hz|Hnz].
  - rewrite Hz, pretty_N_go_0. eexists _, _. split; [done|].
    split; [apply pretty_N_char_digit|].
    assert (x `mod` 10 = x)%N as ->.
    { pose proof (N.div_mod x 10 ltac:(lia)) as Hdm. rewrite Hz in Hdm.
      rewrite N.mul_0_r, N.add_0_l in Hdm. by rewrite <- Hdm. }
    assert (x < 10)%N.
    { apply N.div_small_iff; [lia|done]. }
    assert (x = 1 ∨ x = 2 ∨ x = 3 ∨ x = 4 ∨ x = 5 ∨ x = 6 ∨ x = 7
            ∨ x = 8 ∨ x = 9)%N as Hcases by lia.
    repeat destruct Hcases as [->|Hcases]; try done. by subst.
  - apply IH; [apply N.div_lt; lia|by apply N.neq_0_lt_0].
Qed.

Lemma is_digit_not_ws (c : ascii) : is_digit c = true -> is_ws c = false.
Proof.
  unfold is_digit, is_ws. set (n := nat_of_ascii c). clearbody n.
  intros [H1%Nat.leb_le H2%Nat.leb_le]%andb_true_iff.
  repeat match goal with
         | |- context [Nat.eqb ?a ?b] =>
             destruct (Nat.eqb_spec a b); [lia|]
         end.
  done.
Qed.

Lemma parseInt_string_of_int (q : Z) :
  0 < q -> parseInt (string_of_int q) = Some q.
Proof.
  intros Hq. destruct q as [|p|p]; try lia.
  unfold string_of_int, pretty, pretty_Z, pretty, pretty_positive, pretty,
    pretty_N.
  rewrite decide_False by done.
  destruct (pretty_N_go_head (N.pos p) "") as (c & r & Hc & Hd & H0); [lia|].
  destruct (digits_pretty_N_go (N.pos p)) as (k & Hk); [lia|].
  destruct (Hk "" None) as [Hdig _].
  unfold parseInt.
  assert (trim_ws (pretty_N_go (N.pos p) "") = pretty_N_go (N.pos p) "") as ->.
  { rewrite Hc. cbn [trim_ws]. by rewrite (is_digit_not_ws c Hd). }
  assert (strip_sign (pretty_N_go (N.pos p) "") =
          (1, pretty_N_go (N.pos p) "")) as ->.
  { rewrite Hc. unfold strip_sign.
    destruct (decide (c = "-"%char)) as [->|]; [done|].
    destruct (decide (c = "+"%char)) as [->|]; [done|].
    by repeat case_match. }
  assert (strip_radix (pretty_N_go (N.pos p) "") =
          (10, pretty_N_go (N.pos p) "")) as ->.
  { rewrite Hc. unfold strip_radix. by repeat case_match. }
  rewrite Hdig. cbn. f_equal. lia.
Qed.

End text_facts.

(** * Saving, editing and the positions they move *)
Section save_facts.
Variable parseFloat : string -> jsnum.
Variable fmtFull : Z -> string.

Lemma genId_text env st :
  genId env st = (id_text (S (_id st)) (now env), set__id (S (_id st)) st).
Proof. reflexivity. Qed.

Lemma saveHedge_create env st q :
  parseInt (f_quantity (hedgeForm st)) = Some q -> 0 < q ->
  editing st = None ->
  let st' := saveHedge parseFloat fmtFull env st in
  let entry := entry_of parseFloat (hedgeForm st) q in
  value (hedgesObj st') =
    <[id_text (S (_id st)) (now env) := entry]> (value (hedgesObj st)) ∧
  writes (hedgesObj st') = writes (hedgesObj st) ++ [value (hedgesObj st')] ∧
  value (auditLog st') =
    mkAuditEntry (id_text (S (S (_id st))) (now env)) (iso env) "Current User"
                 "Hedge Created" (entity entry) (summary fmtFull entry q)
    :: value (auditLog st) ∧
  _id st' = S (S (_id st)) ∧
  hedgeModalOpen st' = false ∧
  editingHedge st' = editingHedge st ∧ hedgeForm st' = hedgeForm st ∧
  cropYears st' = cropYears st ∧ consumption st' = consumption st ∧
  production st' = production st ∧ selectedYear st' = selectedYear st.
Proof.
  intros Hparse Hq Hed st' entry. subst st' entry.
  unfold saveHedge. rewrite Hparse, Hed.
  destruct (Z.eqb_spec q 0); [lia|]. destruct (Z.leb_spec q 0); [lia|].
  done.
Qed.

Lemma saveHedge_update env st q k :
  parseInt (f_quantity (hedgeForm st)) = Some q -> 0 < q ->
  editing st = Some k ->
  let st' := saveHedge parseFloat fmtFull env st in
  let entry := entry_of parseFloat (hedgeForm st) q in
  value (hedgesObj st') = <[k := entry]> (value (hedgesObj st)) ∧
  writes (hedgesObj st') = writes (hedgesObj st) ++ [value (hedgesObj st')] ∧
  value (auditLog st') =
    mkAuditEntry (id_text (S (_id st)) (now env)) (iso env) "Current User"
                 "Hedge Modified" (entity entry) (summary fmtFull entry q)
    :: value (auditLog st) ∧
  _id st' = S (_id st) ∧
  hedgeModalOpen st' = false ∧
  editingHedge st' = editingHedge st ∧ hedgeForm st' = hedgeForm st ∧
  cropYears st' = cropYears st ∧ consumption st' = consumption st ∧
  production st' = production st ∧ selectedYear st' = selectedYear st.
Proof.
  intros Hparse Hq Hed st' entry. subst st' entry.
  unfold saveHedge. rewrite Hparse, Hed.
  destruct (Z.eqb_spec q 0); [lia|]. destruct (Z.leb_spec q 0); [lia|].
  done.
Qed.


Lemma addAudit_run_fields a e d prev st env :
  let st' := addAudit_run a e d prev st env in
  value (auditLog st') =
    mkAuditEntry (id_text (S (_id st)) (now env)) (iso env) "Current User"
                 a e d :: prev ∧
  _id st' = S (_id st) ∧
  last (writes (auditLog st')) = Some (value (auditLog st')) ∧
  hedgesObj st' = hedgesObj st.
Proof.
  simpl. unfold addAudit_run. simpl. repeat split.
  by rewrite last_snoc.
Qed.

Lemma addAudit_runs_once env a e d st :
  addAudit_runs [] env a e d st = addAudit env a e d st.
Proof. reflexivity. Qed.

Lemma addAudit_runs_frame a e d prev (envs : list Env) st :
  let st' := foldl (addAudit_run a e d prev) st envs in
  _id st' = (_id st + length envs)%nat ∧ hedgesObj st' = hedgesObj st.
Proof.
  revert st. induction envs as [|env r IH]; intros st; simpl.
  - split; [lia|done].
  - destruct (IH (addAudit_run a e d prev st env)) as (-> & ->).
    destruct (addAudit_run_fields a e d prev st env) as (_ & -> & _ & ->).
    split; [lia|done].
Qed.

(** What the audit log holds after the runs of one [addAudit]: the entry of
    the last run, on top of the previous log. *)
Lemma addAudit_runs_last (envs : list Env) (env : Env) a e d st :
  let st' := addAudit_runs envs env a e d st in
  value (auditLog st') =
    mkAuditEntry (id_text (S (_id st + length envs)) (now env)) (iso env)
                 "Current User" a e d :: value (auditLog st) ∧
  _id st' = S (_id st + length envs) ∧
  last (writes (auditLog st')) = Some (value (auditLog st')) ∧
  hedgesObj st' = hedgesObj st.
Proof.
  simpl. unfold addAudit_runs. rewrite foldl_snoc.
  set (mid := foldl _ st envs).
  destruct (addAudit_runs_frame a e d (value (auditLog st)) envs st)
    as (Hn & Hh).
  fold mid in Hn, Hh.
  destruct (addAudit_run_fields a e d (value (auditLog st)) mid env)
    as (-> & -> & -> & ->).
  by rewrite Hn, Hh.
Qed.

End save_facts.

(** X14: a save with a valid quantity while no hedge is being edited files
    the entry built from the form under the id the generator hands out at
    the click, leaves every other key alone and closes the modal; the new
    ledger is written to the backend at once, once per run of the ledger's
    updater; one "Hedge Created" entry goes to the head of the audit log,
    under an id different from the hedge's, and the last write of the log
    is the log kept; the id counter advances by one for the hedge and by
    one for every run of the audit updater.  With one run of each updater,
    as in a production build, that is one ledger write and a counter
    advanced by two; a development build under StrictMode, which runs both
    updaters twice, writes the ledger twice and advances the counter by
    three. *)
Theorem saveHedge_creates_record (parseFloat : string -> jsnum)
    (fmtFull : Z -> string) (env : Env) (st : App) (q : Z)
    (hedge_reruns : nat) (audit_earlier : list Env) (audit_env : Env) :
  parseInt (f_quantity (hedgeForm st)) = Some q ->
  0 < q ->
  editing st = None ->
  let st' := saveHedge_runs parseFloat fmtFull hedge_reruns audit_earlier
               audit_env env st in
  let newId := (genId env st).1 in
  value (hedgesObj st') !! newId = Some (entry_of parseFloat (hedgeForm st) q) ∧
  quantity (entry_of parseFloat (hedgeForm st) q) = q ∧
  (∀ k, k ≠ newId ->
        value (hedgesObj st') !! k = value (hedgesObj st) !! k) ∧
  writes (hedgesObj st') =
    writes (hedgesObj st)
      ++ replicate (S hedge_reruns) (value (hedgesObj st')) ∧
  (∃ a, value (auditLog st') = a :: value (auditLog st) ∧
        action a = "Hedge Created" ∧ a_entity a = f_entity (hedgeForm st) ∧
        a_id a ≠ newId) ∧
  last (writes (auditLog st')) = Some (value (auditLog st')) ∧
  hedgeModalOpen st' = false ∧
  _id st' = (_id st + 2 + length audit_earlier)%nat ∧
  saveHedge parseFloat fmtFull env st =
    saveHedge_runs parseFloat fmtFull 0 [] env env st ∧
  _id (saveHedge parseFloat fmtFull env st) = S (S (_id st)).
Proof.
  intros Hparse Hq Hed st' newId.
  assert (st' =
          set_hedgeModalOpen false
            (addAudit_runs audit_earlier audit_env "Hedge Created"
               (f_entity (hedgeForm st))
               (summary fmtFull (entry_of parseFloat (hedgeForm st) q) q)
               (set_hedgesObj
                  (setAndSync_runs hedge_reruns hedges_debounce (now env)
                     (Fn (fun prev =>
                            <[newId := entry_of parseFloat (hedgeForm st) q]>
                              prev))
                     (hedgesObj st))
                  (set__id (S (_id st)) st)))) as Hst'.
  { subst st' newId. unfold saveHedge_runs. rewrite Hparse, Hed.
    destruct (Z.eqb_spec q 0); [lia|]. destruct (Z.leb_spec q 0); [lia|].
    reflexivity. }
  set (st2 := set_hedgesObj _ _) in Hst'.
  destruct (addAudit_runs_last audit_earlier audit_env "Hedge Created"
              (f_entity (hedgeForm st))
              (summary fmtFull (entry_of parseFloat (hedgeForm st) q) q) st2)
    as (Ha & Hid & Hw & Hh).
  assert (hedgesObj st' =
          setAndSync_runs hedge_reruns hedges_debounce (now env)
            (Fn (fun prev =>
                   <[newId := entry_of parseFloat (hedgeForm st) q]> prev))
            (hedgesObj st)) as Hledger.
  { rewrite Hst'. simpl. by rewrite Hh. }
  assert (value (hedgesObj st') =
          <[newId := entry_of parseFloat (hedgeForm st) q]>
            (value (hedgesObj st))) as Hv.
  { by rewrite Hledger. }
  assert (_id st' = (_id st + 2 + length audit_earlier)%nat) as Hcount.
  { rewrite Hst'. simpl. rewrite Hid. subst st2. simpl. lia. }
  split; [rewrite Hv; apply lookup_insert_eq|]. split; [done|].
  split; [by intros k Hk; rewrite Hv, lookup_insert_ne|].
  split.
  { rewrite Hv, Hledger. by rewrite setAndSync_runs_now. }
  split.
  { eexists. split; [rewrite Hst'; simpl; exact Ha|].
    split; [done|]. split; [done|].
    simpl. subst newId. rewrite genId_text. simpl.
    intros Heq%id_text_counter. subst st2. simpl in Heq. lia. }
  split; [rewrite Hst'; simpl; exact Hw|].
  split; [by rewrite Hst'|]. split; [exact Hcount|].
  split.
  - unfold saveHedge_runs, saveHedge. rewrite Hparse, Hed.
    destruct (Z.eqb_spec q 0); [lia|]. destruct (Z.leb_spec q 0); [lia|].
    reflexivity.
  - by destruct (saveHedge_create parseFloat fmtFull env st q Hparse Hq Hed)
      as (_ & _ & _ & -> & _).
Qed.

Lemma saveHedge_creates_record_witness :
  let st :=
    set_hedgeForm
      (mkHedgeForm None "Farming" "2025" "Futures" "Dec" "600000" "Short"
                   "5.05" "2023-11-14" "")
      scenario_app in
  let st' :=
    saveHedge_runs scenario_parseFloat scenario_fmtFull 1
      [scenario_env] scenario_env scenario_env st in
  (parseInt (f_quantity (hedgeForm st)) = Some 600000 ∧ 0 < 600000 ∧
   editing st = None) ∧
  size (value (hedgesObj st')) = 9%nat ∧
  length (writes (hedgesObj st')) = 2%nat ∧
  _id st' = (_id st + 3)%nat ∧
  (quantity <$> value (hedgesObj st') !! "id_9_1700000000000") = Some 600000.
Proof.
  intros st st'.
  assert (parseInt (f_quantity (hedgeForm st)) = Some 600000) as H1
    by (vm_compute; reflexivity).
  assert (0 < 600000) as H2 by lia.
  assert (editing st = None) as H3 by reflexivity.
  split; [done|]. split; [vm_compute; reflexivity|].
  split; [vm_compute; reflexivity|]. split; [vm_compute; reflexivity|].
  destruct (saveHedge_creates_record scenario_parseFloat scenario_fmtFull
              scenario_env st 600000 1 [scenario_env] scenario_env H1 H2 H3)
    as (Hl & _).
  subst st'. change ((genId scenario_env st).1) with "id_9_1700000000000" in Hl.
  by rewrite Hl.
Defined.

(** X15: a save with a valid quantity while a hedge is being edited replaces
    the record under the edited key by the entry built from the form and
    leaves every other key alone; when the key is in the ledger the number
    of records does not change; one "Hedge Modified" entry goes to the head
    of the audit log and the ledger is written to the backend at once. *)
Theorem saveHedge_updates_record (parseFloat : string -> jsnum)
    (fmtFull : Z -> string) (env : Env) (st : App) (q : Z) (k : string) :
  parseInt (f_quantity (hedgeForm st)) = Some q ->
  0 < q ->
  editing st = Some k ->
  let st' := saveHedge parseFloat fmtFull env st in
  value (hedgesObj st') !! k = Some (entry_of parseFloat (hedgeForm st) q) ∧
  (∀ k', k' ≠ k ->
         value (hedgesObj st') !! k' = value (hedgesObj st) !! k') ∧
  (is_Some (value (hedgesObj st) !! k) ->
   size (value (hedgesObj st')) = size (value (hedgesObj st))) ∧
  writes (hedgesObj st') = writes (hedgesObj st) ++ [value (hedgesObj st')] ∧
  (∃ a, value (auditLog st') = a :: value (auditLog st) ∧
        action a = "Hedge Modified" ∧ a_entity a = f_entity (hedgeForm st)) ∧
  hedgeModalOpen st' = false.
Proof.
  intros Hparse Hq Hed st'.
  destruct (saveHedge_update parseFloat fmtFull env st q k Hparse Hq Hed)
    as (Hv & Hw & Ha & _ & Hm & _).
  fold st' in Hv, Hw, Ha, Hm. rewrite Hv.
  split; [apply lookup_insert_eq|].
  split; [by intros k' Hk; rewrite lookup_insert_ne|].
  split; [by apply map_size_insert_Some|].
  rewrite <- Hv. split; [done|]. split; [|done].
  eexists. split; [exact Ha|]. done.
Qed.

Lemma saveHedge_updates_record_witness :
  let st := openEditHedge (fun _ => "5.05") scenario_default_farm
                          scenario_app in
  let st' := saveHedge scenario_parseFloat scenario_fmtFull scenario_env st in
  (parseInt (f_quantity (hedgeForm st)) = Some 600000 ∧ 0 < 600000 ∧
   editing st = Some "id_5_1700000000000" ∧
   is_Some (value (hedgesObj st) !! "id_5_1700000000000")) ∧
  size (value (hedgesObj st')) = size (value (hedgesObj st)).
Proof.
  intros st st'.
  assert (parseInt (f_quantity (hedgeForm st)) = Some 600000) as H1
    by (vm_compute; reflexivity).
  assert (0 < 600000) as H2 by lia.
  assert (editing st = Some "id_5_1700000000000") as H3 by reflexivity.
  assert (is_Some (value (hedgesObj st) !! "id_5_1700000000000")) as H4
    by (vm_compute; eauto).
  split; [done|].
  destruct (saveHedge_updates_record scenario_parseFloat scenario_fmtFull
              scenario_env st 600000 "id_5_1700000000000" H1 H2 H3)
    as (_ & _ & Hsize & _).
  exact (Hsize H4).
Defined.



Section production_facts.




End production_facts.

(** X17: saving right after opening a hedge for editing, with the form left
    as it was filled, files under the same id a record with the same entity,
    crop year, contract type and month, quantity, direction, date and notes
    (the quantity survives the trip through its decimal text); a missing or
    zero price comes back as no price; every other key is untouched and the
    modal closes. *)
Theorem edit_then_save_keeps_record (price_to_string : jsnum -> string)
    (parseFloat : string -> jsnum) (fmtFull : Z -> string) (env : Env)
    (h : Hedge) (st : App) :
  0 < quantity h < 10 ^ 21 ->
  id h ≠ "" ->
  let st' :=
    saveHedge parseFloat fmtFull env (openEditHedge price_to_string h st) in
  (∃ d, value (hedgesObj st') !! id h = Some d ∧
        entity d = entity h ∧ cropYear d = cropYear h ∧
        contractType d = contractType h ∧
        contractMonth d = contractMonth h ∧ quantity d = quantity h ∧
        direction d = direction h ∧ dateEntered d = dateEntered h ∧
        notes d = notes h ∧
        (price h = None -> price d = None) ∧
        (∀ p, price h = Some p -> jsnum_truthy p = false ->
              price d = None)) ∧
  (∀ k, k ≠ id h ->
        value (hedgesObj st') !! k = value (hedgesObj st) !! k) ∧
  hedgeModalOpen st' = false.
Proof.
  intros [Hq _] Hid st'. subst st'.
  set (st1 := openEditHedge price_to_string h st).
  assert (parseInt (f_quantity (hedgeForm st1)) = Some (quantity h)) as Hparse
    by (by apply parseInt_string_of_int).
  assert (editing st1 = Some (id h)) as Hed.
  { unfold editing, st1. simpl.
    by destruct (String.eqb_spec (id h) ""). }
  destruct (saveHedge_update parseFloat fmtFull env st1 (quantity h) (id h)
              Hparse Hq Hed) as (Hv & _ & _ & _ & Hm & _).
  rewrite Hv. split; [|split; [|exact Hm]].
  - eexists. split; [apply lookup_insert_eq|].
    unfold st1. simpl. repeat split; try done.
    + by intros ->.
    + intros p -> Hf. simpl. by rewrite Hf.
  - intros k Hk. by rewrite lookup_insert_ne.
Qed.

Lemma edit_then_save_keeps_record_witness :
  let h := scenario_default_farm in
  let st' :=
    saveHedge scenario_parseFloat scenario_fmtFull scenario_env
              (openEditHedge (fun _ => "5.05") h scenario_app) in
  (0 < quantity h < 10 ^ 21 ∧ id h ≠ "") ∧
  (quantity <$> value (hedgesObj st') !! id h) = Some 600000.
Proof.
  intros h st'.
  assert (0 < quantity h < 10 ^ 21) as H1 by (by vm_compute).
  assert (id h ≠ "") as H2 by discriminate.
  split; [done|].
  destruct (edit_then_save_keeps_record (fun _ => "5.05") scenario_parseFloat
              scenario_fmtFull scenario_env h scenario_app H1 H2)
    as ((d & Hd & _ & _ & _ & _ & Hqd & _) & _).
  subst st'. rewrite Hd. simpl. by rewrite Hqd.
Defined.






(** * Crop years *)
Section year_facts.

#[local] Instance year_le_trans : Transitive year_le.
Proof.
  intros a b c Hab Hbc. unfold year_le in *.
  apply Is_true_true. apply Is_true_true in Hab, Hbc.
  exact (transitivity (R := String.le) Hab Hbc).
Qed.

#[local] Instance year_le_total : Total year_le.
Proof.
  intros a b. unfold year_le.
  destruct (String.leb_total a b); auto.
Qed.

Lemma js_sort_sorted (l : list string) : StronglySorted year_le (js_sort l).
Proof. apply StronglySorted_merge_sort; apply _. Qed.

Lemma js_sort_perm (l : list string) : js_sort l ≡ₚ l.
Proof. apply merge_sort_Permutation. Qed.

Lemma StronglySorted_filter_keep {A} (R : relation A) (P : A -> Prop)
    `{!∀ x, Decision (P x)} (l : list A) :
  StronglySorted R l -> StronglySorted R (filter P l).
Proof.
  induction 1 as [|a l Hl IH Ha]; [constructor|].
  rewrite filter_cons. destruct (decide (P a)); [|done].
  constructor; [done|].
  apply Forall_forall. intros z [_ Hz]%list_elem_of_filter.
  by eapply Forall_forall in Ha.
Qed.

Lemma four_digits_nonempty (y : string) : four_digits y = true -> y ≠ "".
Proof. by intros H ->. Qed.

Lemma addCropYear_rejects env st :
  let y := trim (newYear st) in
  y = "" ∨ y ∈ value (cropYears st) ∨ four_digits y = false ->
  addCropYear env st = st.
Proof.
  intros y Hbad. unfold addCropYear. fold y.
  destruct Hbad as [->|[Hin| ->]].
  - done.
  - rewrite (bool_decide_eq_true_2 _ Hin). by rewrite orb_true_r.
  - by rewrite orb_true_r.
Qed.

Lemma addCropYear_accepts env st :
  let y := trim (newYear st) in
  y ∉ value (cropYears st) -> four_digits y = true ->
  let st' := addCropYear env st in
  value (cropYears st') = js_sort (value (cropYears st) ++ [y]) ∧
  writes (cropYears st') = writes (cropYears st) ++ [value (cropYears st')] ∧
  newYear st' = "" ∧
  value (auditLog st') =
    mkAuditEntry (id_text (S (_id st)) (now env)) (iso env) "Current User"
                 "Year Added" "System" ("Crop year " +:+ y +:+ " added")
    :: value (auditLog st) ∧
  _id st' = S (_id st) ∧
  hedgesObj st' = hedgesObj st ∧ editingHedge st' = editingHedge st ∧
  selectedYear st' = selectedYear st.
Proof.
  intros y Hnin Hfour st'. subst st'. unfold addCropYear. fold y.
  rewrite (bool_decide_eq_false_2 _ Hnin), Hfour.
  destruct (String.eqb_spec y "") as [Hy|_];
    [by apply four_digits_nonempty in Hfour|].
  done.
Qed.

Lemma removeCropYear_cases env y st :
  let st' := removeCropYear env y st in
  st' = st ∨
  ((1 < length (value (cropYears st)))%nat ∧
   value (cropYears st') = filter (fun yr => yr ≠ y) (value (cropYears st)) ∧
   value (auditLog st') =
     mkAuditEntry (id_text (S (_id st)) (now env)) (iso env) "Current User"
                  "Year Removed" "System" ("Crop year " +:+ y +:+ " removed")
     :: value (auditLog st) ∧
   _id st' = S (_id st) ∧
   hedgesObj st' = hedgesObj st ∧ editingHedge st' = editingHedge st).
Proof.
  intros st'. subst st'. unfold removeCropYear.
  destruct (Nat.leb_spec (length (value (cropYears st))) 1); [by left|].
  destruct (confirm env); [|by left]. right. simpl.
  by destruct (decide (selectedYear st = Some y)).
Qed.

Lemma crop_years_ok_remove (y : string) (ys : list string) :
  crop_years_ok ys -> (1 < length ys)%nat ->
  crop_years_ok (filter (fun yr => yr ≠ y) ys).
Proof.
  intros (Hne & Hnd & Hs & Hd) Hlen. repeat split.
  - by apply filter_ne_nonempty.
  - by apply NoDup_filter.
  - by apply StronglySorted_filter_keep.
  - unfold all_four_digits in *. apply Forall_forall.
    intros z [_ Hz]%list_elem_of_filter. by eapply Forall_forall in Hd.
Qed.

Lemma crop_years_ok_add (y : string) (ys : list string) :
  crop_years_ok ys -> y ∉ ys -> four_digits y = true ->
  crop_years_ok (js_sort (ys ++ [y])).
Proof.
  intros (Hne & Hnd & Hs & Hd) Hnin Hfour.
  pose proof (js_sort_perm (ys ++ [y])) as Hp. repeat split.
  - intros Hnil. rewrite Hnil in Hp. symmetry in Hp.
    apply Permutation_nil_r in Hp. by destruct ys.
  - rewrite Hp. apply NoDup_app. repeat split; [done| |apply NoDup_singleton].
    intros z Hz ->%list_elem_of_singleton. done.
  - apply js_sort_sorted.
  - unfold all_four_digits in *. rewrite Hp.
    apply Forall_app. split; [done|]. by constructor.
Qed.

End year_facts.

(** X20: adding a crop year validates the typed text: when the trimmed text
    is empty, already in the list or not exactly four digits, nothing
    changes; otherwise the list becomes the old years and the new one in
    ascending order, stays free of duplicates, is written to the backend at
    once, the input field is cleared and a "Year Added" entry heads the
    audit log. *)
Theorem addCropYear_validates (env : Env) (st : App) :
  let y := trim (newYear st) in
  let ys := value (cropYears st) in
  let st' := addCropYear env st in
  (y = "" ∨ y ∈ ys ∨ four_digits y = false -> st' = st) ∧
  (y ∉ ys -> four_digits y = true ->
   value (cropYears st') ≡ₚ ys ++ [y] ∧
   StronglySorted year_le (value (cropYears st')) ∧
   (NoDup ys -> NoDup (value (cropYears st'))) ∧
   writes (cropYears st') = writes (cropYears st) ++ [value (cropYears st')] ∧
   newYear st' = "" ∧
   ∃ a, value (auditLog st') = a :: value (auditLog st) ∧
        action a = "Year Added").
Proof.
  intros y ys st'. split; [apply addCropYear_rejects|].
  intros Hnin Hfour.
  destruct (addCropYear_accepts env st Hnin Hfour)
    as (Hv & Hw & Hn & Ha & _).
  fold st' in Hv, Hw, Hn, Ha. fold y ys in Hv.
  rewrite Hv. split; [apply js_sort_perm|]. split; [apply js_sort_sorted|].
  split.
  { intros Hnd. rewrite js_sort_perm. apply NoDup_app.
    repeat split; [done| |apply NoDup_singleton].
    intros z Hz ->%list_elem_of_singleton. done. }
  rewrite <- Hv. split; [done|]. split; [done|].
  eexists. split; [exact Ha|done].
Qed.

Lemma addCropYear_validates_witness :
  let st := set_newYear " 2023 " scenario_app in
  ((trim (newYear st) ∉ value (cropYears st)) ∧
   four_digits (trim (newYear st)) = true) ∧
  value (cropYears (addCropYear scenario_env st)) ≡ₚ
  ["2024"; "2025"; "2026"; "2027"; "2023"] ∧
  StronglySorted year_le (value (cropYears (addCropYear scenario_env st))).
Proof.
  intros st.
  assert (trim (newYear st) ∉ value (cropYears st)) as H1.
  { apply (bool_decide_unpack _). vm_compute. exact I. }
  assert (four_digits (trim (newYear st)) = true) as H2 by reflexivity.
  split; [done|].
  destruct (addCropYear_validates scenario_env st) as [_ Hacc].
  destruct (Hacc H1 H2) as (Hp & Hs & _).
  split; [exact Hp|exact Hs].
Defined.

(** * What a session of user actions preserves *)
Section session_facts.
Variable parseFloat : string -> jsnum.
Variable fmtFull : Z -> string.
Variable price_to_string : jsnum -> string.

Lemma editing_Some st k : editing st = Some k -> editingHedge st = Some k.
Proof.
  unfold editing. destruct (editingHedge st) as [k'|]; [|done].
  by destruct (k' =? "")%string; [|intros [= ->]].
Qed.

Lemma saveHedge_cases env st :
  let st' := saveHedge parseFloat fmtFull env st in
  st' = st ∨
  (∃ q k, 0 < q ∧
     (k = id_text (S (_id st)) (now env) ∨ editingHedge st = Some k) ∧
     value (hedgesObj st') =
       <[k := entry_of parseFloat (hedgeForm st) q]> (value (hedgesObj st)) ∧
     (∃ a, value (auditLog st') = a :: value (auditLog st) ∧
           a_id a = id_text (_id st') (now env)) ∧
     (S (_id st) ≤ _id st')%nat ∧
     editingHedge st' = editingHedge st ∧ cropYears st' = cropYears st).
Proof.
  intros st'.
  destruct (parseInt (f_quantity (hedgeForm st))) as [q|] eqn:Hparse;
    [|left; apply saveHedge_invalid; unfold invalid_quantity;
      by rewrite Hparse].
  destruct (decide (0 < q)) as [Hq|Hq];
    [|left; apply saveHedge_invalid; unfold invalid_quantity;
      rewrite Hparse; lia].
  right. destruct (editing st) as [k|] eqn:Hed.
  - destruct (saveHedge_update parseFloat fmtFull env st q k Hparse Hq Hed)
      as (Hv & _ & Ha & Hid & _ & He & _ & Hc & _).
    fold st' in Hv, Ha, Hid, He, Hc. exists q, k.
    split; [done|]. split; [right; by apply editing_Some|].
    split; [done|]. split; [|split; [lia|done]].
    eexists. split; [exact Ha|]. by rewrite Hid.
  - destruct (saveHedge_create parseFloat fmtFull env st q Hparse Hq Hed)
      as (Hv & _ & Ha & Hid & _ & He & _ & Hc & _).
    fold st' in Hv, Ha, Hid, He, Hc. exists q, (id_text (S (_id st)) (now env)).
    split; [done|]. split; [by left|].
    split; [done|]. split; [|split; [lia|done]].
    eexists. split; [exact Ha|]. by rewrite Hid.
Qed.

Lemma deleteHedge_cases env h st :
  let st' := deleteHedge fmtFull env h st in
  st' = st ∨
  (value (hedgesObj st') = delete (id h) (value (hedgesObj st)) ∧
   (∃ a, value (auditLog st') = a :: value (auditLog st) ∧
         a_id a = id_text (_id st') (now env)) ∧
   _id st' = S (_id st) ∧
   editingHedge st' = editingHedge st ∧ cropYears st' = cropYears st).
Proof.
  intros st'. subst st'. unfold deleteHedge.
  destruct (confirm env); [right|by left]. simpl.
  split; [done|]. split; [|done]. eexists. split; done.
Qed.

Lemma addCropYear_cases env st :
  let y := trim (newYear st) in
  let st' := addCropYear env st in
  st' = st ∨
  ((y ∉ value (cropYears st)) ∧ four_digits y = true ∧
   value (cropYears st') = js_sort (value (cropYears st) ++ [y]) ∧
   (∃ a, value (auditLog st') = a :: value (auditLog st) ∧
         a_id a = id_text (_id st') (now env)) ∧
   _id st' = S (_id st) ∧
   hedgesObj st' = hedgesObj st ∧ editingHedge st' = editingHedge st).
Proof.
  intros y st'.
  destruct (decide (y ∈ value (cropYears st))) as [Hin|Hnin];
    [left; apply addCropYear_rejects; auto|].
  destruct (four_digits y) eqn:Hfour;
    [|left; apply addCropYear_rejects; auto].
  right.
  destruct (addCropYear_accepts env st Hnin Hfour)
    as (Hv & _ & _ & Ha & Hid & Hh & He & _).
  fold st' in Hv, Ha, Hid, Hh, He.
  split; [done|]. split; [done|]. split; [done|].
  split; [|done]. eexists. split; [exact Ha|]. by rewrite Hid.
Qed.

Lemma removeCropYear_audit env y st :
  let st' := removeCropYear env y st in
  st' = st ∨
  ((1 < length (value (cropYears st)))%nat ∧
   value (cropYears st') = filter (fun yr => yr ≠ y) (value (cropYears st)) ∧
   (∃ a, value (auditLog st') = a :: value (auditLog st) ∧
         a_id a = id_text (_id st') (now env)) ∧
   _id st' = S (_id st) ∧
   hedgesObj st' = hedgesObj st ∧ editingHedge st' = editingHedge st).
Proof.
  intros st'.
  destruct (removeCropYear_cases env y st)
    as [?|(Hl & Hv & Ha & Hid & Hh & He)]; [by left|right].
  fold st' in Hv, Ha, Hid, Hh, He.
  split; [done|]. split; [done|]. split; [|done].
  eexists. split; [exact Ha|]. by rewrite Hid.
Qed.

(** One step changes the year list by at most one accepted add or remove. *)
Lemma ui_step_years st st' :
  ui_step parseFloat fmtFull price_to_string st st' ->
  crop_years_ok (value (cropYears st)) -> crop_years_ok (value (cropYears st')).
Proof.
  intros Hstep Hok. destruct Hstep; try done.
  - destruct (addCropYear_cases env st) as [->|(Hn & Hf & -> & _)]; [done|].
    by apply crop_years_ok_add.
  - destruct (removeCropYear_audit env y st) as [->|(Hl & -> & _)]; [done|].
    by apply crop_years_ok_remove.
  - destruct (saveHedge_cases env st) as [->|(q & k & _ & _ & _ & _ & _ & _ & ->)];
      done.
  - destruct (deleteHedge_cases env h st) as [->|(_ & _ & _ & _ & ->)]; done.
Qed.

Lemma ui_step_quantities st st' :
  ui_step parseFloat fmtFull price_to_string st st' ->
  quantities_positive (value (hedgesObj st)) ->
  quantities_positive (value (hedgesObj st')).
Proof.
  intros Hstep Hok. destruct Hstep; try done.
  - destruct (addCropYear_cases env st) as [->|(_ & _ & _ & _ & _ & -> & _)];
      done.
  - destruct (removeCropYear_audit env y st)
      as [->|(_ & _ & _ & _ & -> & _)]; done.
  - destruct (saveHedge_cases env st)
      as [->|(q & k & Hq & _ & -> & _)]; [done|].
    intros k' d. destruct (decide (k = k')) as [<-|Hne].
    + rewrite lookup_insert_eq. by intros [= <-].
    + rewrite lookup_insert_ne by done. apply Hok.
  - destruct (deleteHedge_cases env h st) as [->|(-> & _)]; [done|].
    intros k' d Hl. apply lookup_delete_Some in Hl as [_ Hl]. by eapply Hok.
Qed.

Lemma ui_step_audit st st' :
  ui_step parseFloat fmtFull price_to_string st st' ->
  (value (auditLog st') = value (auditLog st) ∨
   ∃ a, value (auditLog st') = a :: value (auditLog st)) ∧
  (_id st ≤ _id st')%nat.
Proof.
  intros Hstep. destruct Hstep; try (split; [by left|done]).
  - destruct (addCropYear_cases env st)
      as [->|(_ & _ & _ & (a & Ha & _) & Hid & _)]; [by split; [left|]|].
    split; [right; eauto|lia].
  - destruct (removeCropYear_audit env y st)
      as [->|(_ & _ & (a & Ha & _) & Hid & _)]; [by split; [left|]|].
    split; [right; eauto|lia].
  - destruct (saveHedge_cases env st)
      as [->|(q & k & _ & _ & _ & (a & Ha & _) & Hid & _)];
      [by split; [left|]|].
    split; [right; eauto|lia].
  - destruct (deleteHedge_cases env h st)
      as [->|(_ & (a & Ha & _) & Hid & _)]; [by split; [left|]|].
    split; [right; eauto|lia].
Qed.

End session_facts.

Section session_ids.
Variable parseFloat : string -> jsnum.
Variable fmtFull : Z -> string.
Variable price_to_string : jsnum -> string.

Lemma issued_below (n m : nat) (t : Z) (k : string) :
  issued n k -> (n < m)%nat -> k ≠ id_text m t.
Proof. intros (i & t' & Hi & ->) Hlt Heq%id_text_counter. lia. Qed.

Lemma issued_self (n : nat) (t : Z) : issued n (id_text n t).
Proof. exists n, t. split; [lia|done]. Qed.

(** How the id bookkeeping survives a change that only adds ids the
    generator has just handed out. *)
Lemma ids_issued_grow st st' :
  ids_issued st ->
  (_id st ≤ _id st')%nat ->
  (∀ k, is_Some (value (hedgesObj st') !! k) ->
        is_Some (value (hedgesObj st) !! k) ∨ issued (_id st') k) ->
  (∀ k, editingHedge st' = Some k ->
        editingHedge st = Some k ∨ issued (_id st') k) ->
  (value (auditLog st') = value (auditLog st) ∨
   ∃ a t, value (auditLog st') = a :: value (auditLog st) ∧
          a_id a = id_text (_id st') t ∧ (_id st < _id st')%nat) ->
  ids_issued st'.
Proof.
  intros (Hl & He & Ha & Hnd) Hle Hl' He' Ha'. repeat split.
  - intros k [Hk|Hk]%Hl'; [|done]. apply (issued_mono (_id st)); auto.
  - intros k [Hk|Hk]%He'; [|done]. apply (issued_mono (_id st)); auto.
  - destruct Ha' as [->|(a & t & -> & Hid & Hlt)].
    + eapply Forall_impl; [exact Ha|]. intros x Hx; by apply (issued_mono (_id st)).
    + constructor; [rewrite Hid; apply issued_self|].
      eapply Forall_impl; [exact Ha|]. intros x Hx; by apply (issued_mono (_id st)).
  - destruct Ha' as [->|(a & t & -> & Hid & Hlt)]; [done|].
    rewrite fmap_cons. apply NoDup_cons. split; [|done].
    intros (b & Hb & Hin)%list_elem_of_fmap.
    eapply Forall_forall in Ha; [|exact Hin].
    rewrite <- Hb, Hid in Ha. by eapply issued_below in Ha.
Qed.

Lemma ui_step_ids st st' :
  ui_step parseFloat fmtFull price_to_string st st' ->
  ids_issued st -> ids_issued st'.
Proof.
  intros Hstep Hok. destruct Hstep; try exact Hok.
  - (* add a year *)
    destruct (addCropYear_cases env st)
      as [->|(_ & _ & _ & (a & Ha & Hid) & Hn & Hh & He)]; [done|].
    apply (ids_issued_grow st); [done|lia|rewrite Hh; auto|rewrite He; auto|].
    right. exists a, (now env). split; [done|]. split; [done|lia].
  - (* remove a year *)
    destruct (removeCropYear_audit env y st)
      as [->|(_ & _ & (a & Ha & Hid) & Hn & Hh & He)]; [done|].
    apply (ids_issued_grow st); [done|lia|rewrite Hh; auto|rewrite He; auto|].
    right. exists a, (now env). split; [done|]. split; [done|lia].
  - (* open the form for a new hedge *)
    apply (ids_issued_grow st); [done|done|auto| |by left].
    intros k Hk. discriminate Hk.
  - (* open the form on a row *)
    apply (ids_issued_grow st); [done|done|auto| |by left].
    intros k [= <-]. right. destruct Hok as (Hl & _).
    apply Hl. apply elem_of_hedges in H. by rewrite H.
  - (* save *)
    destruct (saveHedge_cases parseFloat fmtFull env st)
      as [->|(q & k & _ & Hk & Hv & (a & Ha & Hid) & Hn & He & _)]; [done|].
    apply (ids_issued_grow st); [done|lia| |rewrite He; auto|].
    + intros k' Hsome. rewrite Hv in Hsome.
      destruct (decide (k = k')) as [<-|Hne];
        [|rewrite lookup_insert_ne in Hsome by done; by left].
      right. destruct Hk as [->|Hk].
      * eapply issued_mono; [|apply issued_self]. lia.
      * destruct Hok as (_ & Hed & _).
        eapply issued_mono; [|by apply Hed]. lia.
    + right. exists a, (now env). split; [done|]. split; [done|lia].
  - (* delete *)
    destruct (deleteHedge_cases fmtFull env h st)
      as [->|(Hv & (a & Ha & Hid) & Hn & He & _)]; [done|].
    apply (ids_issued_grow st); [done|lia| |rewrite He; auto|].
    + intros k' Hsome. rewrite Hv in Hsome. left.
      apply lookup_delete_is_Some in Hsome. tauto.
    + right. exists a, (now env). split; [done|]. split; [done|lia].
Qed.

Lemma initial_ids_issued t0 today : ids_issued (initial_app t0 today).
Proof.
  repeat split.
  - intros k [d Hk].
    change (value (hedgesObj (initial_app t0 today)))
      with (defaultHedgesObj t0) in Hk.
    change (_id (initial_app t0 today)) with 8%nat.
    unfold defaultHedgesObj in Hk. apply elem_of_list_to_map_2 in Hk.
    unfold default_entries in Hk. cbn [imap compose] in Hk.
    repeat (apply elem_of_cons in Hk as [[= -> _]|Hk];
            [eexists _, t0; split; [|reflexivity]; lia|]).
    by apply elem_of_nil in Hk.
  - intros k Hk. discriminate Hk.
  - constructor.
  - constructor.
Qed.

End session_ids.

(** X21: whatever the user does, in whatever order, a year list that is
    non-empty, free of duplicates, sorted ascending and made of four-digit
    years stays so: no sequence of additions and removals empties it,
    duplicates a year, breaks the order or lets a malformed year in. *)
Theorem crop_years_stay_well_formed (parseFloat : string -> jsnum)
    (fmtFull : Z -> string) (price_to_string : jsnum -> string)
    (st st' : App) :
  crop_years_ok (value (cropYears st)) ->
  rtc (ui_step parseFloat fmtFull price_to_string) st st' ->
  crop_years_ok (value (cropYears st')).
Proof.
  intros Hok Hrun. induction Hrun as [|x y z Hxy _ IH]; [done|].
  apply IH. by eapply ui_step_years.
Qed.

Lemma crop_years_stay_well_formed_witness :
  let st1 := set_newYear "2023" scenario_app in
  let st2 := addCropYear scenario_env st1 in
  let st3 := removeCropYear scenario_env "2025" st2 in
  (crop_years_ok (value (cropYears scenario_app)) ∧
   rtc (ui_step scenario_parseFloat scenario_fmtFull (fun _ => "5.05"))
       scenario_app st3) ∧
  crop_years_ok (value (cropYears st3)).
Proof.
  intros st1 st2 st3.
  assert (crop_years_ok (value (cropYears scenario_app))) as Hok.
  { repeat split; try discriminate.
    - apply (bool_decide_unpack _). vm_compute. exact I.
    - repeat constructor.
    - repeat constructor. }
  assert (rtc (ui_step scenario_parseFloat scenario_fmtFull (fun _ => "5.05"))
              scenario_app st3) as Hrun.
  { eapply rtc_l; [apply (ui_type_year _ _ _ scenario_app "2023")|].
    eapply rtc_l; [apply (ui_add_year _ _ _ st1 scenario_env)|].
    apply rtc_once. apply ui_remove_year.
    apply (bool_decide_unpack _). vm_compute. exact I. }
  split; [done|].
  exact (crop_years_stay_well_formed _ _ _ _ _ Hok Hrun).
Defined.

(** X22: whatever the user does, a ledger in which every record has a
    positive quantity stays so: no sequence of saves, edits and deletes
    stores a record with quantity zero or less. *)
Theorem quantities_stay_positive (parseFloat : string -> jsnum)
    (fmtFull : Z -> string) (price_to_string : jsnum -> string)
    (st st' : App) :
  quantities_positive (value (hedgesObj st)) ->
  rtc (ui_step parseFloat fmtFull price_to_string) st st' ->
  quantities_positive (value (hedgesObj st')).
Proof.
  intros Hok Hrun. induction Hrun as [|x y z Hxy _ IH]; [done|].
  apply IH. by eapply ui_step_quantities.
Qed.

Lemma quantities_stay_positive_witness :
  let st1 := openEditHedge (fun _ => "5.05") scenario_default_farm
                           scenario_app in
  let st2 := saveHedge scenario_parseFloat scenario_fmtFull scenario_env st1 in
  (quantities_positive (value (hedgesObj scenario_app)) ∧
   rtc (ui_step scenario_parseFloat scenario_fmtFull (fun _ => "5.05"))
       scenario_app st2) ∧
  quantities_positive (value (hedgesObj st2)).
Proof.
  intros st1 st2.
  assert (quantities_positive (value (hedgesObj scenario_app))) as Hok.
  { intros k d Hk. apply elem_of_map_to_list in Hk. revert k d Hk.
    assert (Forall (fun e : string * HedgeData => 0 < quantity e.2)
              (map_to_list (value (hedgesObj scenario_app)))) as Hall.
    { apply (bool_decide_unpack _). vm_compute. exact I. }
    intros k d Hk. rewrite Forall_forall in Hall. exact (Hall (k, d) Hk). }
  assert (rtc (ui_step scenario_parseFloat scenario_fmtFull (fun _ => "5.05"))
              scenario_app st2) as Hrun.
  { eapply rtc_l; [apply ui_open_edit|apply rtc_once, ui_save].
    apply elem_of_hedges. vm_compute. reflexivity. }
  split; [done|].
  exact (quantities_stay_positive _ _ _ _ _ Hok Hrun).
Defined.

(** X23: the audit log is append-only at its head: after any sequence of
    user actions the log that was there is still there, unchanged, as the
    tail of the new log, and the id counter has not gone back; one action
    adds at most one entry. *)
Theorem audit_log_append_only (parseFloat : string -> jsnum)
    (fmtFull : Z -> string) (price_to_string : jsnum -> string)
    (st st' : App) :
  rtc (ui_step parseFloat fmtFull price_to_string) st st' ->
  value (auditLog st) `suffix_of` value (auditLog st') ∧
  (_id st ≤ _id st')%nat ∧
  (∀ a b, ui_step parseFloat fmtFull price_to_string a b ->
     (length (value (auditLog b)) ≤ S (length (value (auditLog a))))%nat).
Proof.
  intros Hrun. split; [|split].
  - induction Hrun as [|x y z Hxy _ IH]; [done|].
    etrans; [|exact IH].
    destruct (ui_step_audit _ _ _ _ _ Hxy) as [[->|[a ->]] _]; [done|].
    by apply suffix_cons_r.
  - induction Hrun as [|x y z Hxy _ IH]; [done|].
    destruct (ui_step_audit _ _ _ _ _ Hxy) as [_ Hle]. lia.
  - intros a b Hstep.
    destruct (ui_step_audit _ _ _ _ _ Hstep) as [[->|[e ->]] _]; simpl; lia.
Qed.

Lemma audit_log_append_only_witness :
  let st1 := deleteHedge scenario_fmtFull scenario_env scenario_default_farm
                         scenario_app in
  let st2 := removeCropYear scenario_env "2024" st1 in
  rtc (ui_step scenario_parseFloat scenario_fmtFull (fun _ => "5.05"))
      scenario_app st2 ∧
  value (auditLog st1) `suffix_of` value (auditLog st2).
Proof.
  intros st1 st2.
  assert (rtc (ui_step scenario_parseFloat scenario_fmtFull (fun _ => "5.05"))
              st1 st2) as Hrun2.
  { apply rtc_once, ui_remove_year.
    apply (bool_decide_unpack _). vm_compute. exact I. }
  split.
  - eapply rtc_l; [|exact Hrun2]. apply ui_delete.
    apply elem_of_hedges. vm_compute. reflexivity.
  - exact (proj1 (audit_log_append_only _ _ _ _ _ Hrun2)).
Defined.

(** X24: within one page load, as long as the ledger holds only keys that
    this page load's generator has handed out (as the default data at mount
    does, and as every user action keeps it), after any sequence of user
    actions the id the generator hands out next is not a key of the ledger,
    so creating a hedge never overwrites a record and the ledger grows by
    exactly one; and no two audit entries share an id.  The condition is
    needed: a ledger delivered by the backend can hold the very id the
    generator hands out next, filed by an earlier page load at the same
    clock reading, and creating a hedge then replaces that record. *)
Theorem session_ids_never_collide (parseFloat : string -> jsnum)
    (fmtFull : Z -> string) (price_to_string : jsnum -> string)
    (st st' : App) :
  ids_issued st ->
  rtc (ui_step parseFloat fmtFull price_to_string) st st' ->
  ids_issued st' ∧
  (∀ env, value (hedgesObj st') !! (genId env st').1 = None) ∧
  (∀ env q,
     parseInt (f_quantity (hedgeForm st')) = Some q -> 0 < q ->
     editing st' = None ->
     size (value (hedgesObj (saveHedge parseFloat fmtFull env st'))) =
     S (size (value (hedgesObj st')))) ∧
  NoDup (a_id <$> value (auditLog st')) ∧
  (∀ t0 today, ids_issued (initial_app t0 today)) ∧
  (let st0 := scenario_app_reloaded in
   let st1 := saveHedge parseFloat fmtFull scenario_env st0 in
   ¬ ids_issued st0 ∧
   value (hedgesObj st0) !! "id_9_1700000000000" =
     Some (data scenario_other_year) ∧
   value (hedgesObj st1) !! "id_9_1700000000000" =
     Some (entry_of parseFloat (hedgeForm st0) 600000) ∧
   size (value (hedgesObj st1)) = size (value (hedgesObj st0))).
Proof.
  intros Hok Hrun.
  assert (ids_issued st') as Hok'.
  { induction Hrun as [|x y z Hxy _ IH]; [done|].
    apply IH. by eapply ui_step_ids. }
  split; [exact Hok'|]. destruct Hok' as (Hl & _ & _ & Hnd).
  assert (∀ env, value (hedgesObj st') !! (genId env st').1 = None) as Hfresh.
  { intros env. rewrite genId_text. simpl.
    destruct (value (hedgesObj st') !! id_text (S (_id st')) (now env))
      as [d|] eqn:Hk; [|done].
    assert (issued (_id st') (id_text (S (_id st')) (now env))) as Hi
      by (apply Hl; by rewrite Hk).
    by apply issued_fresh with (t := now env) in Hi. }
  split; [exact Hfresh|]. split; [|split; [exact Hnd|]].
  { intros env q Hparse Hq Hed.
    destruct (saveHedge_create parseFloat fmtFull env st' q Hparse Hq Hed)
      as (-> & _).
    apply map_size_insert_None. specialize (Hfresh env).
    by rewrite genId_text in Hfresh. }
  split; [apply initial_ids_issued|].
  intros st0 st1.
  assert (value (hedgesObj st0) !! "id_9_1700000000000" =
          Some (data scenario_other_year)) as Hheld
    by (vm_compute; reflexivity).
  assert (parseInt (f_quantity (hedgeForm st0)) = Some 600000) as Hparse
    by (vm_compute; reflexivity).
  assert (editing st0 = None) as Hed by reflexivity.
  destruct (saveHedge_create parseFloat fmtFull scenario_env st0 600000
              Hparse ltac:(lia) Hed) as (Hv & _).
  fold st1 in Hv.
  change (id_text (S (_id st0)) (now scenario_env))
    with "id_9_1700000000000" in Hv.
  split; [|split; [exact Hheld|split]].
  - intros (Hkeys & _).
    destruct (Hkeys "id_9_1700000000000") as (m & t & Hm & Heq);
      [by rewrite Hheld|].
    change "id_9_1700000000000" with (id_text 9 1700000000000) in Heq.
    apply id_text_counter in Heq. change (_id st0) with 8%nat in Hm. lia.
  - rewrite Hv. apply lookup_insert_eq.
  - rewrite Hv. by apply map_size_insert_Some.
Qed.

Lemma session_ids_never_collide_witness :
  let st1 := deleteHedge scenario_fmtFull scenario_env scenario_default_farm
                         scenario_app in
  (ids_issued scenario_app ∧
   rtc (ui_step scenario_parseFloat scenario_fmtFull (fun _ => "5.05"))
       scenario_app st1) ∧
  value (hedgesObj st1) !! (genId scenario_env st1).1 = None.
Proof.
  intros st1.
  assert (ids_issued scenario_app) as Hok by apply initial_ids_issued.
  assert (rtc (ui_step scenario_parseFloat scenario_fmtFull (fun _ => "5.05"))
              scenario_app st1) as Hrun.
  { apply rtc_once, ui_delete. apply elem_of_hedges. vm_compute. reflexivity. }
  split; [done|].
  exact (proj1 (proj2 (session_ids_never_collide _ _ _ _ _ Hok Hrun))
           scenario_env).
Defined.

(** X25: removing a crop year does not delete data: the ledger, the
    consumption and the production collections are untouched, so the
    calculation for any year, the removed one included, gives what it gave
    before; and the selection moves only when the removed year was the
    selected one. *)
Theorem removeCropYear_keeps_hedge_data (env : Env) (y : string) (st : App) :
  let st' := removeCropYear env y st in
  hedgesObj st' = hedgesObj st ∧ consumption st' = consumption st ∧
  production st' = production st ∧
  (∀ y', calc y' (value (consumption st')) (value (production st'))
              (hedges (value (hedgesObj st'))) =
         calc y' (value (consumption st)) (value (production st))
              (hedges (value (hedgesObj st)))) ∧
  (selectedYear st ≠ Some y -> selectedYear st' = selectedYear st).
Proof.
  intros st'.
  assert (hedgesObj st' = hedgesObj st ∧ consumption st' = consumption st ∧
          production st' = production st ∧
          (selectedYear st ≠ Some y -> selectedYear st' = selectedYear st))
    as (Hh & Hc & Hp & Hs).
  { subst st'. unfold removeCropYear.
    destruct (length (value (cropYears st)) <=? 1)%nat; [done|].
    destruct (confirm env); [|done]. simpl.
    destruct (decide (selectedYear st = Some y)); done. }
  split; [done|]. split; [done|]. split; [done|]. split; [|done].
  intros y'. by rewrite Hh, Hc, Hp.
Qed.

Lemma removeCropYear_keeps_hedge_data_witness :
  let st' := removeCropYear scenario_env "2026" scenario_app in
  selectedYear scenario_app ≠ Some "2026" ∧
  selectedYear st' = Some "2025".
Proof.
  intros st'.
  assert (selectedYear scenario_app ≠ Some "2026") as Hne by discriminate.
  split; [exact Hne|].
  exact (proj2 (proj2 (proj2 (proj2
           (removeCropYear_keeps_hedge_data scenario_env "2026"
              scenario_app)))) Hne).
Defined.
